(** * The cascade resolution pipeline of the CSS inliner

    A shallow embedding of the Go packages [internal/css], [internal/config],
    [internal/resolver], [internal/html] and of the inlining driver.

    Conventions of the embedding.
    - A Go [string] is a Rocq [string], that is a sequence of bytes.  The
      library calls [strings.TrimSpace] and [strings.ToLower] are embedded by
      their behaviour on ASCII text; bytes above 127 are left alone and are
      never white space.
    - A Go [int] is a [Z].  Every integer of the program is a count of matches
      in a text or an index in a slice, far from the 64 bit bounds.
    - A Go [map[string]T] is a [gmap string T].  A [for ... range] loop over a
      map is a [map_fold]; where the result of a loop depends on the order in
      which Go visits the keys, the loop is embedded as a relation over the
      permutations of the entries.
    - A regular expression of the parser is embedded as the function that
      tries a match at the head of a text, and [FindAllString] and
      [ReplaceAllString] as the left-to-right scans over that function. *)

From Stdlib Require Import ZArith Ascii String List Bool Lia Permutation.
From stdpp Require Import base option gmap strings list fin_maps sorting.

Local Open Scope string_scope.
Local Open Scope Z_scope.

(** ** Package css: the data model (types.go) *)

Module css.

Record Specificity := mkSpecificity {
  Inline : Z;
  IDs : Z;
  Classes : Z;
  Elements : Z;
  SpecImportant : bool
}.

Record Declaration := mkDeclaration {
  Property : string;
  Value : string;
  Important : bool
}.

Record Rule := mkRule {
  Selector : string;
  RuleSpecificity : Specificity;
  Declarations : gmap string Declaration;
  SourceOrder : Z
}.

Record Stylesheet := mkStylesheet { Rules : list Rule }.

Record MatchResult := mkMatchResult {
  MatchRule : Rule;
  MatchSpecificity : Specificity;
  MatchDeclarations : gmap string Declaration
}.

(** [Specificity.Compare]: -1, 0 or 1. *)
Definition Compare (s other : Specificity) : Z :=
  if SpecImportant s && negb (SpecImportant other) then 1
  else if negb (SpecImportant s) && SpecImportant other then -1
  else if negb (Inline s =? Inline other) then
    (if Inline s >? Inline other then 1 else -1)
  else if negb (IDs s =? IDs other) then
    (if IDs s >? IDs other then 1 else -1)
  else if negb (Classes s =? Classes other) then
    (if Classes s >? Classes other then 1 else -1)
  else if negb (Elements s =? Elements other) then
    (if Elements s >? Elements other then 1 else -1)
  else 0.

(** [SpecificityFromInline] *)
Definition SpecificityFromInline (important : bool) : Specificity :=
  {| Inline := 1000; IDs := 0; Classes := 0; Elements := 0;
     SpecImportant := important |}.

End css.

Export css.

#[global] Instance Declaration_eq_dec : EqDecision Declaration.
Proof. solve_decision. Defined.

(** ** Go's [strings] package, on ASCII text *)

Module gostrings.

Definition quote2 : ascii := ascii_of_nat 34.
Definition quote1 : ascii := "'"%char.

Definition inRange (lo hi : N) (c : ascii) : bool :=
  (lo <=? N_of_ascii c)%N && (N_of_ascii c <=? hi)%N.

Definition isUpper (c : ascii) : bool := inRange 65 90 c.
Definition isLower (c : ascii) : bool := inRange 97 122 c.
Definition isDigit (c : ascii) : bool := inRange 48 57 c.
Definition isLetter (c : ascii) : bool := isUpper c || isLower c.

(** The six ASCII characters [strings.TrimSpace] removes:
    tab, line feed, vertical tab, form feed, carriage return, space. *)
Definition isAsciiSpace (c : ascii) : bool :=
  inRange 9 13 c || Ascii.eqb c " ".

Fixpoint dropWhile (f : ascii -> bool) (s : string) : string :=
  match s with
  | EmptyString => EmptyString
  | String c s' => if f c then dropWhile f s' else s
  end.

Fixpoint spanLen (f : ascii -> bool) (s : string) : nat :=
  match s with
  | EmptyString => O
  | String c s' => if f c then S (spanLen f s') else O
  end.

Fixpoint forallb (f : ascii -> bool) (s : string) : bool :=
  match s with
  | EmptyString => true
  | String c s' => f c && forallb f s'
  end.

Fixpoint takeS (n : nat) (s : string) : string :=
  match n, s with
  | S k, String c s' => String c (takeS k s')
  | _, _ => EmptyString
  end.

Fixpoint dropS (n : nat) (s : string) : string :=
  match n, s with
  | S k, String _ s' => dropS k s'
  | _, _ => s
  end.

Definition isEmpty (s : string) : bool :=
  match s with EmptyString => true | _ => false end.

Fixpoint trimRight (s : string) : string :=
  match s with
  | EmptyString => EmptyString
  | String c s' =>
      let t := trimRight s' in
      if isAsciiSpace c && isEmpty t then EmptyString else String c t
  end.

Definition TrimSpace (s : string) : string :=
  trimRight (dropWhile isAsciiSpace s).

Definition lowerChar (c : ascii) : ascii :=
  if isUpper c then ascii_of_N (N_of_ascii c + 32) else c.

Fixpoint ToLower (s : string) : string :=
  match s with
  | EmptyString => EmptyString
  | String c s' => String (lowerChar c) (ToLower s')
  end.

Fixpoint HasPrefix (s pre : string) {struct pre} : bool :=
  match pre, s with
  | EmptyString, _ => true
  | String p pre', String c s' => Ascii.eqb c p && HasPrefix s' pre'
  | String _ _, EmptyString => false
  end.

(** [strings.Index]: the position of the first occurrence. *)
Fixpoint Index (s sub : string) : option nat :=
  if HasPrefix s sub then Some O
  else match s with
       | EmptyString => None
       | String _ s' => S <$> Index s' sub
       end.

Definition Contains (s sub : string) : bool :=
  match Index s sub with Some _ => true | None => false end.

Fixpoint Join (parts : list string) (sep : string) : string :=
  match parts with
  | [] => EmptyString
  | [p] => p
  | p :: rest => String.append p (String.append sep (Join rest sep))
  end.

End gostrings.

Export gostrings.

(** ** Go's [regexp] package: the scans over a head matcher

    A head matcher receives the character before the current position (for
    the [\b] assertion) and the text from the current position on, and
    returns the length of the match that starts there with its capture
    groups.  None of the expressions of the program matches the empty text,
    so a scan resumes right after a match. *)

Module regexp.

Definition matcher := option ascii -> string -> option (nat * list string).

Section Scan.
Variable matchAt : matcher.

(** [FindAllStringSubmatch(s, -1)]: the first [skip] characters belong to
    the previous match. *)
Fixpoint findFrom (skip : nat) (prev : option ascii) (s : string)
  : list (list string) :=
  match s with
  | EmptyString => []
  | String c s' =>
      match skip with
      | S k => findFrom k (Some c) s'
      | O =>
          match matchAt prev s with
          | Some (S n, groups) =>
              (takeS (S n) s :: groups) :: findFrom n (Some c) s'
          | _ => findFrom O (Some c) s'
          end
      end
  end.

Definition FindAllStringSubmatch (s : string) : list (list string) :=
  findFrom O None s.

Definition FindAllString (s : string) : list string :=
  omap head (FindAllStringSubmatch s).

Definition MatchString (s : string) : bool :=
  match FindAllStringSubmatch s with [] => false | _ => true end.

(** [ReplaceAllString(s, EmptyString)] *)
Fixpoint removeFrom (skip : nat) (prev : option ascii) (s : string)
  : string :=
  match s with
  | EmptyString => EmptyString
  | String c s' =>
      match skip with
      | S k => removeFrom k (Some c) s'
      | O =>
          match matchAt prev s with
          | Some (S n, _) => removeFrom n (Some c) s'
          | _ => String c (removeFrom O (Some c) s')
          end
      end
  end.

Definition RemoveAllString (s : string) : string := removeFrom O None s.
End Scan.

(** [\w] of RE2 *)
Definition isWordChar (c : ascii) : bool :=
  isLetter c || isDigit c || Ascii.eqb c "_".

(** [[a-zA-Z0-9_-]] *)
Definition isNameChar (c : ascii) : bool :=
  isLetter c || isDigit c || Ascii.eqb c "_" || Ascii.eqb c "-".

(** [\s] of RE2: tab, line feed, form feed, carriage return, space. *)
Definition isReSpace (c : ascii) : bool :=
  inRange 9 10 c || inRange 12 13 c || Ascii.eqb c " ".

(** [lead[a-zA-Z0-9_-]+] for a literal [lead]: the run of name characters is
    taken whole, as the repetition is greedy and nothing follows it. *)
Definition leadName (lead : string) : matcher := fun _ s =>
  if HasPrefix s lead then
    match spanLen isNameChar (dropS (String.length lead) s) with
    | O => None
    | S n => Some ((String.length lead + S n)%nat, [])
    end
  else None.

End regexp.

Export regexp.

(** ** Package css: the parser (parser.go) *)

Module parser.

(** *** The compiled expressions of [NewParser]

    The texts of the expressions, as the source compiles them. *)

Definition ruleRegexSource : string := "([^{]+)\{([^}]*)\}".
Definition importantRegexSource : string := "!\s*important\s*$".
Definition idRegexSource : string := "#[a-zA-Z0-9_-]+".
Definition classRegexSource : string := "\.[a-zA-Z0-9_-]+".
Definition attrRegexSource : string := "\[[^\]]*\]".
Definition pseudoClassRegexSource : string := ":[a-zA-Z0-9_-]+".
Definition elementRegexSource : string := "\b[a-zA-Z]+\b".
Definition pseudoElementRegexSource : string := "::[a-zA-Z0-9_-]+".
Definition commentRegexSource : string := "/\*[^*]*\*+([^/*][^*]*\*+)*/".
Definition atRuleRegexSource : string := "@(import|charset|namespace)[^;]+;".

(** [ruleRegex]: a non-empty run of characters other
    than an opening brace, the brace, and the text up to the first closing
    brace.  Both runs are greedy and each is followed by the one character
    it excludes, so there is nothing to backtrack to. *)
Definition ruleRegex : matcher := fun _ s =>
  let n := spanLen (fun c => negb (Ascii.eqb c "{")) s in
  match n, dropS n s with
  | S _, String _ body =>
      match Index body "}" with
      | Some m => Some ((n + 1 + m + 1)%nat, [takeS n s; takeS m body])
      | None => None
      end
  | _, _ => None
  end.

(** [importantRegex]: an exclamation mark, white space, the word in lower
    case, white space, and the end of the text. *)
Definition importantRegex : matcher := fun _ s =>
  match s with
  | String "!" r =>
      let r1 := dropWhile isReSpace r in
      if HasPrefix r1 "important" && forallb isReSpace (dropS 9 r1)
      then Some (String.length s, [])
      else None
  | _ => None
  end.

Definition idRegex : matcher := leadName "#".
Definition classRegex : matcher := leadName ".".
Definition pseudoClassRegex : matcher := leadName ":".
Definition pseudoElementRegex : matcher := leadName "::".

(** [attrRegex]: from an opening bracket to the first closing one. *)
Definition attrRegex : matcher := fun _ s =>
  match s with
  | String "[" r =>
      match Index r "]" with
      | Some m => Some ((1 + m + 1)%nat, [])
      | None => None
      end
  | _ => None
  end.

(** [elementRegex].  The match starts at a letter, so the
    first [\b] asks for no word character before it; the run of letters is
    greedy, and giving letters back would leave a letter on both sides of
    the second [\b], so it matches exactly when the whole run is followed by
    no word character. *)
Definition elementRegex : matcher := fun prev s =>
  match spanLen isLetter s with
  | O => None
  | S n =>
      let before := match prev with Some p => isWordChar p | None => false end in
      let after :=
        match dropS (S n) s with
        | String c _ => isWordChar c
        | EmptyString => false
        end in
      if before || after then None else Some (S n, [])
  end.

(** The expression compiled in [removeComments]: from an opening mark to the first
    closing mark behind it. *)
Definition commentRegex : matcher := fun _ s =>
  match s with
  | String "/" (String "*" r) =>
      match Index r "*/" with
      | Some m => Some ((2 + m + 2)%nat, [])
      | None => None
      end
  | _ => None
  end.

(** The expression compiled in [extractAtRules]: the at sign, one of the
    three keywords, a non-empty run of characters other than a semicolon,
    and the semicolon. *)
Definition atRuleRegex : matcher := fun _ s =>
  match s with
  | String "@" r =>
      match List.find (HasPrefix r) ["import"; "charset"; "namespace"] with
      | Some kw =>
          let rest := dropS (String.length kw) r in
          match spanLen (fun c => negb (Ascii.eqb c ";")) rest with
          | O => None
          | S n =>
              match dropS (S n) rest with
              | String _ _ =>
                  Some ((1 + String.length kw + S n + 1)%nat, [kw])
              | EmptyString => None
              end
          end
      | None => None
      end
  | _ => None
  end.

(** *** Helpers *)

Definition removeComments (css : string) : string :=
  RemoveAllString commentRegex css.

Definition extractAtRules (css : string) : string :=
  RemoveAllString atRuleRegex css.

Definition isQuote (c : ascii) : bool :=
  Ascii.eqb c quote2 || Ascii.eqb c quote1.

Definition snoc (s : string) (c : ascii) : string :=
  String.append s (String c EmptyString).

(** [smartSplit]: [current] is the builder, [parts] the slice built so far. *)
Fixpoint smartSplitLoop (delimiter : ascii) (inQuotes : bool)
    (quoteChar : ascii) (current : string) (parts : list string)
    (s : string) : list string :=
  match s with
  | EmptyString =>
      if isEmpty current then parts else parts ++ [current]
  | String char s' =>
      if negb inQuotes && isQuote char then
        smartSplitLoop delimiter true char (snoc current char) parts s'
      else if inQuotes && Ascii.eqb char quoteChar then
        smartSplitLoop delimiter false quoteChar (snoc current char) parts s'
      else if negb inQuotes && Ascii.eqb char delimiter then
        if isEmpty current
        then smartSplitLoop delimiter inQuotes quoteChar current parts s'
        else smartSplitLoop delimiter inQuotes quoteChar EmptyString
               (parts ++ [current]) s'
      else
        smartSplitLoop delimiter inQuotes quoteChar (snoc current char) parts s'
  end.

Definition smartSplit (s : string) (delimiter : ascii) : list string :=
  smartSplitLoop delimiter false zero EmptyString [] s.

(** [findUnquotedChar]: the index of the first [char] outside quotes, or -1. *)
Fixpoint findUnquotedLoop (char : ascii) (inQuotes : bool)
    (quoteChar : ascii) (i : Z) (s : string) : Z :=
  match s with
  | EmptyString => -1
  | String c s' =>
      if negb inQuotes && isQuote c then
        findUnquotedLoop char true c (i + 1) s'
      else if inQuotes && Ascii.eqb c quoteChar then
        findUnquotedLoop char false quoteChar (i + 1) s'
      else if negb inQuotes && Ascii.eqb c char then i
      else findUnquotedLoop char inQuotes quoteChar (i + 1) s'
  end.

Definition findUnquotedChar (s : string) (char : ascii) : Z :=
  findUnquotedLoop char false zero 0 s.

(** Lines 122 to 127 of [parseDeclarations]: the check for the marker. *)
Definition checkImportant (value : string) : string * bool :=
  let important := MatchString importantRegex value in
  if important
  then (TrimSpace (RemoveAllString importantRegex value), true)
  else (value, false).

(** Lines 104 to 120 of [parseDeclarations]: the property and the value of
    one piece of the block, or [None] when the loop leaves the piece with
    [continue]. *)
Definition splitDeclaration (part : string) : option (string * string) :=
  let part := TrimSpace part in
  if isEmpty part then None else
  let colonIndex := findUnquotedChar part ":" in
  if colonIndex =? -1 then None else
  let property := TrimSpace (takeS (Z.to_nat colonIndex) part) in
  let value := TrimSpace (dropS (Z.to_nat (colonIndex + 1)) part) in
  if isEmpty property || isEmpty value then None else Some (property, value).

(** The body of the loop of [parseDeclarations] on one piece of the block:
    the declaration it stores, if any. *)
Definition parseDeclaration (part : string) : option Declaration :=
  match splitDeclaration part with
  | Some (property, value) =>
      let '(value, important) := checkImportant value in
      let property := ToLower property in
      Some {| Property := property; Value := value; Important := important |}
  | None => None
  end.

(** [parseDeclarations]; its error result is always nil. *)
Definition parseDeclarations (declarationsText : string)
  : gmap string Declaration :=
  foldl (fun declarations part =>
           match parseDeclaration part with
           | Some d => <[Property d := d]> declarations
           | None => declarations
           end)
        ∅ (smartSplit declarationsText ";").

Definition ParseInlineStyle (styleAttr : string) : gmap string Declaration :=
  parseDeclarations styleAttr.

Definition inList (s : string) (l : list string) : bool :=
  existsb (String.eqb s) l.

Definition isPseudoClassKeyword (s : string) : bool :=
  inList s ["hover"; "focus"; "active"; "visited"; "link"; "first-child";
            "last-child"; "nth-child"; "nth-of-type"; "not"].

Definition isCSSKeyword (s : string) : bool :=
  inList s ["and"; "or"; "not"; "only"; "all"; "screen"; "print"].

Definition len {A} (l : list A) : Z := Z.of_nat (List.length l).

(** [calculateSpecificity] *)
Definition calculateSpecificity (selector : string) : Specificity :=
  let ids := len (FindAllString idRegex selector) in
  let classes := len (FindAllString classRegex selector) in
  let classes := classes + len (FindAllString attrRegex selector) in
  let pseudoMatches := FindAllString pseudoClassRegex selector in
  let classes :=
    classes + len (List.filter (fun m => negb (HasPrefix m "::")) pseudoMatches) in
  let elements := len (FindAllString pseudoElementRegex selector) in
  let elementMatches := FindAllString elementRegex selector in
  let elements :=
    elements + len (List.filter
                      (fun m => let element := ToLower m in
                                negb (isPseudoClassKeyword element)
                                && negb (isCSSKeyword element))
                      elementMatches) in
  {| Inline := 0; IDs := ids; Classes := classes; Elements := elements;
     SpecImportant := false |}.

(** The body of the loop of [Parse] on the [i]-th match of [ruleRegex]. *)
Definition ruleOfMatch (i : nat) (m : list string) : option Rule :=
  match m with
  | [_; g1; g2] =>
      let selector := TrimSpace g1 in
      let declarations := TrimSpace g2 in
      if isEmpty selector || isEmpty declarations then None else
      Some {| Selector := selector;
              RuleSpecificity := calculateSpecificity selector;
              Declarations := parseDeclarations declarations;
              SourceOrder := Z.of_nat i |}
  | _ => None
  end.

Definition ruleMatches (cssText : string) : list (list string) :=
  FindAllStringSubmatch ruleRegex (extractAtRules (removeComments cssText)).

(** [Parse]; its error result is always nil. *)
Definition Parse (cssText : string) : Stylesheet :=
  {| Rules := omap id (imap ruleOfMatch (ruleMatches cssText)) |}.

(** [IsEmailSafeProperty] *)
Definition safeProperties : list string :=
  ["color"; "font-family"; "font-size"; "font-weight"; "font-style";
   "text-align"; "text-decoration"; "line-height"; "letter-spacing";
   "width"; "height"; "padding"; "padding-top"; "padding-right";
   "padding-bottom"; "padding-left"; "margin"; "margin-top"; "margin-right";
   "margin-bottom"; "margin-left";
   "background"; "background-color"; "background-image";
   "border"; "border-top"; "border-right"; "border-bottom"; "border-left";
   "border-color"; "border-style"; "border-width";
   "border-collapse"; "border-spacing"; "vertical-align"].

Definition IsEmailSafeProperty (property : string) : bool :=
  inList (ToLower property) safeProperties.

End parser.

Export parser.

(** ** Package config (config.go) *)

Module config.

Record Config := mkConfig {
  PreserveMediaQueries : bool;
  PreservePseudoSelectors : bool;
  RemoveStyleTags : bool;
  StripUnusedCSS : bool;
  EmailClientOptimizations : bool;
  PreserveWhitespace : bool;
  TargetEmailClient : string
}.

Definition Default : Config :=
  {| PreserveMediaQueries := true;
     PreservePseudoSelectors := true;
     RemoveStyleTags := false;
     StripUnusedCSS := true;
     EmailClientOptimizations := true;
     PreserveWhitespace := true;
     TargetEmailClient := "generic" |}.

Record EmailClientCompatibility := mkCompat {
  SupportsMediaQueries : bool;
  SupportsPseudoSelectors : gmap string bool;
  RequiresInlineStyles : bool;
  MaxStylesheetSize : Z
}.

Definition GetCompatibilityProfile (client : string)
  : EmailClientCompatibility :=
  let c := ToLower client in
  if inList c ["outlook"; "outlook_desktop"] then
    {| SupportsMediaQueries := false;
       SupportsPseudoSelectors := <[":hover" := false]> (<[":focus" := false]> ∅);
       RequiresInlineStyles := true;
       MaxStylesheetSize := 65536 |}
  else if inList c ["gmail"; "gmail_web"] then
    {| SupportsMediaQueries := true;
       SupportsPseudoSelectors := <[":hover" := true]> (<[":focus" := true]> ∅);
       RequiresInlineStyles := false;
       MaxStylesheetSize := 0 |}
  else if inList c ["apple_mail"; "mail_app"] then
    {| SupportsMediaQueries := true;
       SupportsPseudoSelectors := <[":hover" := true]> (<[":focus" := true]> ∅);
       RequiresInlineStyles := false;
       MaxStylesheetSize := 0 |}
  else if inList c ["outlook_online"; "outlook_web"] then
    {| SupportsMediaQueries := true;
       SupportsPseudoSelectors := <[":hover" := true]> (<[":focus" := false]> ∅);
       RequiresInlineStyles := true;
       MaxStylesheetSize := 65536 |}
  else
    {| SupportsMediaQueries := false;
       SupportsPseudoSelectors := ∅;
       RequiresInlineStyles := true;
       MaxStylesheetSize := 32768 |}.

End config.

Export config.

(** ** Package html: the node contract (types.go) and the style writer
    (goquery.go)

    Of a node the pipeline reads the tag name, the declarations of the style
    attribute and the selector predicate, whose [None] is the error result
    of [Matches]. *)

Module html.

Record Node := mkNode {
  TagName : string;
  GetInlineStyle : gmap string Declaration;
  Matches : string -> option bool
}.

(** The text of one entry, as [formatStyleString] prints it with
    ["%s: %s"]. *)
Definition formatDeclaration (declaration : Declaration) : string :=
  let value := Value declaration in
  let value := if Important declaration
               then String.append value " !important" else value in
  String.append (Property declaration) (String.append ": " value).

(** [formatStyleString] ranges over the map itself, in the order Go happens
    to visit it: [s] is a result of the call when it is the text built from
    the entries in one of their orders. *)
Definition formatStyleString (styles : gmap string Declaration) (s : string)
  : Prop :=
  exists visit : list (string * Declaration),
    Permutation visit (map_to_list styles) /\
    s = Join (List.map (fun kv => formatDeclaration (snd kv)) visit) "; ".

(** [IsPseudoSelector] *)
Definition IsPseudoSelector (selector : string) : bool :=
  Contains selector ":" &&
  (Contains selector ":hover" || Contains selector ":focus" ||
   Contains selector ":active" || Contains selector ":visited" ||
   Contains selector "::before" || Contains selector "::after").

End html.

Export html.

(** ** Package resolver (resolver.go) *)

Module resolver.

Record cascadeEntry := mkEntry {
  specificity : Specificity;
  sourceOrder : Z;
  important : bool;
  isInline : bool
}.

(** The zero value of [cascadeEntry], which a Go map returns for a key it
    does not hold. *)
Definition zeroEntry : cascadeEntry :=
  {| specificity := {| Inline := 0; IDs := 0; Classes := 0; Elements := 0;
                       SpecImportant := false |};
     sourceOrder := 0; important := false; isInline := false |}.

Record ValidationWarning := mkWarning {
  WProperty : string;
  WValue : string;
  Message : string;
  Severity : string
}.

(** [shouldReplace] *)
Definition shouldReplace (property : string)
    (newEntry existingEntry : cascadeEntry) : bool :=
  if (Inline (specificity existingEntry) =? 0)
     && (IDs (specificity existingEntry) =? 0)
     && (Classes (specificity existingEntry) =? 0)
     && (Elements (specificity existingEntry) =? 0) then true
  else if important newEntry && negb (important existingEntry) then true
  else if negb (important newEntry) && important existingEntry then false
  else
    let specificityComparison :=
      Compare (specificity newEntry) (specificity existingEntry) in
    if specificityComparison >? 0 then true
    else if specificityComparison <? 0 then false
    else sourceOrder newEntry >=? sourceOrder existingEntry.

(** The two maps [applyCascade] updates together. *)
Record cascade := mkCascade {
  winningDeclarations : gmap string Declaration;
  winningSpecs : gmap string cascadeEntry
}.

(** The body shared by the two loops of [applyCascade]. *)
Definition offer (property : string) (declaration : Declaration)
    (entry : cascadeEntry) (st : cascade) : cascade :=
  if shouldReplace property entry (default zeroEntry (winningSpecs st !! property))
  then {| winningDeclarations := <[property := declaration]> (winningDeclarations st);
          winningSpecs := <[property := entry]> (winningSpecs st) |}
  else st.

Definition ruleEntry (m : MatchResult) (declaration : Declaration)
  : cascadeEntry :=
  {| specificity := MatchSpecificity m;
     sourceOrder := SourceOrder (MatchRule m);
     important := Important declaration;
     isInline := false |}.

Definition inlineEntry (declaration : Declaration) : cascadeEntry :=
  {| specificity := SpecificityFromInline (Important declaration);
     sourceOrder := 999999;
     important := Important declaration;
     isInline := true |}.

(** Step 1 of [applyCascade] for one match. *)
Definition cascadeMatch (st : cascade) (m : MatchResult) : cascade :=
  map_fold (fun property declaration st =>
              offer property declaration (ruleEntry m declaration) st)
           st (MatchDeclarations m).

(** Step 2 of [applyCascade]. *)
Definition cascadeInline (st : cascade)
    (inlineStyles : gmap string Declaration) : cascade :=
  map_fold (fun property declaration st =>
              offer property declaration (inlineEntry declaration) st)
           st inlineStyles.

Definition cascadeOf (matches : list MatchResult)
    (inlineStyles : gmap string Declaration) : cascade :=
  cascadeInline
    (foldl cascadeMatch {| winningDeclarations := ∅; winningSpecs := ∅ |} matches)
    inlineStyles.

(** [applyCascade] *)
Definition applyCascade (matches : list MatchResult)
    (inlineStyles : gmap string Declaration) : gmap string Declaration :=
  winningDeclarations (cascadeOf matches inlineStyles).

(** [findMatchingRules]: a rule whose selector the node cannot evaluate is
    passed over.  Of the rule a match points to, the cascade reads the
    source order only. *)
Definition findMatchingRules (stylesheet : Stylesheet) (node : Node)
  : list MatchResult :=
  omap (fun rule =>
          match Matches node (Selector rule) with
          | Some true =>
              Some {| MatchRule := rule;
                      MatchSpecificity := RuleSpecificity rule;
                      MatchDeclarations := Declarations rule |}
          | _ => None
          end)
       (Rules stylesheet).

(** [findMatchingRules] when the loop has a single variable [rule] for all
    its rounds, as in Go before 1.22: every match points to that variable,
    which holds the last rule of the stylesheet by the time [applyCascade]
    reads the source order through the pointer. *)
Definition findMatchingRulesShared (stylesheet : Stylesheet) (node : Node)
  : list MatchResult :=
  match last (Rules stylesheet) with
  | None => []
  | Some shared =>
      omap (fun rule =>
              match Matches node (Selector rule) with
              | Some true =>
                  Some {| MatchRule := shared;
                          MatchSpecificity := RuleSpecificity rule;
                          MatchDeclarations := Declarations rule |}
              | _ => None
              end)
           (Rules stylesheet)
  end.

(** The test of [filterEmailSafeStyles] on one entry: whether it is copied
    to [filtered]. *)
Definition keepsEntry (cfg : Config) (property : string)
    (declaration : Declaration) : bool :=
  let compatibility := GetCompatibilityProfile (TargetEmailClient cfg) in
  if IsEmailSafeProperty property then true
  else if String.eqb property "position" then
    negb (RequiresInlineStyles compatibility)
  else if String.eqb property "float" then
    negb (String.eqb (TargetEmailClient cfg) "outlook")
  else if String.eqb property "display" then
    String.eqb (Value declaration) "block"
    || String.eqb (Value declaration) "inline"
    || String.eqb (Value declaration) "table"
    || String.eqb (Value declaration) "table-cell"
  else negb (RequiresInlineStyles compatibility).

(** [filterEmailSafeStyles] *)
Definition filterEmailSafeStyles (cfg : Config)
    (styles : gmap string Declaration) : gmap string Declaration :=
  if negb (EmailClientOptimizations cfg) then styles
  else
    map_fold (fun property declaration filtered =>
                if keepsEntry cfg property declaration
                then <[property := declaration]> filtered
                else filtered)
             ∅ styles.

(** [ResolveStyles]; [findMatchingRules] never fails, so neither does it. *)
Definition ResolveStyles (stylesheet : Stylesheet) (cfg : Config)
    (node : Node) : gmap string Declaration :=
  let matchingRules := findMatchingRules stylesheet node in
  let inlineStyles := GetInlineStyle node in
  let finalStyles := applyCascade matchingRules inlineStyles in
  if EmailClientOptimizations cfg
  then filterEmailSafeStyles cfg finalStyles
  else finalStyles.

(** [shouldReplaceDeclaration] *)
Definition shouldReplaceDeclaration (existing new : Declaration) : bool :=
  if Important new && negb (Important existing) then true
  else if negb (Important new) && Important existing then false
  else true.

(** [MergeStyles] *)
Definition MergeStyles (existing newStyles : gmap string Declaration)
  : gmap string Declaration :=
  let merged :=
    map_fold (fun property declaration merged =>
                <[property := declaration]> merged)
             ∅ existing in
  map_fold (fun property newDeclaration merged =>
              match merged !! property with
              | None => <[property := newDeclaration]> merged
              | Some existingDeclaration =>
                  if shouldReplaceDeclaration existingDeclaration newDeclaration
                  then <[property := newDeclaration]> merged
                  else merged
              end)
           merged newStyles.

(** The warnings [ValidateStyles] appends for one entry. *)
Definition validateEntry (cfg : Config) (property : string)
    (declaration : Declaration) : list ValidationWarning :=
  let compatibility := GetCompatibilityProfile (TargetEmailClient cfg) in
  let byProperty :=
    if String.eqb property "background-image" then
      if Contains (Value declaration) "url("
         && String.eqb (TargetEmailClient cfg) "outlook"
      then [ {| WProperty := property; WValue := Value declaration;
                Message := "Background images may not render in Outlook desktop";
                Severity := "warning" |} ]
      else []
    else if String.eqb property "width" || String.eqb property "height" then
      if Contains (Value declaration) "vw" || Contains (Value declaration) "vh"
      then [ {| WProperty := property; WValue := Value declaration;
                Message := "Viewport units not supported in email clients";
                Severity := "error" |} ]
      else []
    else if String.eqb property "position" then
      if negb (String.eqb (Value declaration) "static")
         && RequiresInlineStyles compatibility
      then [ {| WProperty := property; WValue := Value declaration;
                Message := "Positioning not supported in this email client";
                Severity := "warning" |} ]
      else []
    else [] in
  let unsafe :=
    if negb (IsEmailSafeProperty property)
    then [ {| WProperty := property; WValue := Value declaration;
              Message := "Property may not be supported across all email clients";
              Severity := "info" |} ]
    else [] in
  byProperty ++ unsafe.

(** [ValidateStyles].  The warnings of one entry stay together; the entries
    come in the order of [map_to_list], one of the orders Go may take. *)
Definition ValidateStyles (cfg : Config) (styles : gmap string Declaration)
  : list ValidationWarning :=
  flat_map (fun kv => validateEntry cfg (fst kv) (snd kv)) (map_to_list styles).

(** Insertion in a list in ascending byte order, and the sort of
    [sort.Strings]. *)
Fixpoint insertSorted (x : string) (l : list string) : list string :=
  match l with
  | [] => [x]
  | y :: l' => if String.leb x y then x :: l else y :: insertSorted x l'
  end.

Definition sortStrings (l : list string) : list string :=
  foldr insertSorted [] l.

(** [StylesString], when the loop that collects the keys visits them in the
    order [properties]. *)
Definition StylesStringVisit (properties : list string)
    (styles : gmap string Declaration) : string :=
  if (size styles =? 0)%nat then EmptyString
  else
    let properties := sortStrings properties in
    let parts :=
      List.map (fun property =>
                  let declaration :=
                    default {| Property := EmptyString; Value := EmptyString;
                               Important := false |} (styles !! property) in
                  let value := Value declaration in
                  let value := if Important declaration
                               then String.append value " !important"
                               else value in
                  String.append property (String.append ": " value))
               properties in
    Join parts "; ".

Definition StylesString (styles : gmap string Declaration) : string :=
  StylesStringVisit (fst <$> map_to_list styles) styles.

(** [ConflictInfo] *)
Record ConflictInfo := mkConflict {
  ExistingValue : string;
  ExistingImportant : bool;
  NewValue : string;
  NewImportant : bool;
  Winner : bool
}.

(** [GetConflictingProperties] *)
Definition GetConflictingProperties
    (existing newStyles : gmap string Declaration)
  : gmap string ConflictInfo :=
  map_fold (fun property newDecl (conflicts : gmap string ConflictInfo) =>
              match existing !! property with
              | Some existingDecl =>
                  if negb (String.eqb (Value existingDecl) (Value newDecl))
                     || negb (Bool.eqb (Important existingDecl)
                                       (Important newDecl))
                  then <[property :=
                           {| ExistingValue := Value existingDecl;
                              ExistingImportant := Important existingDecl;
                              NewValue := Value newDecl;
                              NewImportant := Important newDecl;
                              Winner := shouldReplaceDeclaration
                                          existingDecl newDecl |}]> conflicts
                  else conflicts
              | None => conflicts
              end)
           ∅ newStyles.

End resolver.

Export resolver.

(** ** The inlining driver *)

Module inliner.

(** The fields of [InlineResult] that [processElement] updates. *)
Record InlineResult := mkResult {
  InlinedStyles : Z;
  Warnings : list ValidationWarning
}.

Definition shouldSkipElement (tagName : string) : bool :=
  inList tagName ["html"; "head"; "title"; "meta"; "link"; "script";
                  "style"; "noscript"; "base"].

(** [processElement]: the map handed to [SetInlineStyle], if the element
    gets that far, and the result record after the call. *)
Definition processElement (cfg : Config) (stylesheet : Stylesheet)
    (element : Node) (result : InlineResult)
  : option (gmap string Declaration) * InlineResult :=
  let tagName := ToLower (TagName element) in
  if shouldSkipElement tagName then (None, result) else
  let computedStyles := ResolveStyles stylesheet cfg element in
  if (size computedStyles =? 0)%nat then (None, result) else
  let existingStyles := GetInlineStyle element in
  let finalStyles := MergeStyles existingStyles computedStyles in
  let warnings := ValidateStyles cfg finalStyles in
  (Some finalStyles,
   {| InlinedStyles := InlinedStyles result + Z.of_nat (size finalStyles);
      Warnings := Warnings result ++ warnings |}).

End inliner.

Export inliner.

(** ** Documents used as test inputs *)

Module scenarios.

Definition configFor (client : string) : Config :=
  {| PreserveMediaQueries := true;
     PreservePseudoSelectors := true;
     RemoveStyleTags := false;
     StripUnusedCSS := true;
     EmailClientOptimizations := true;
     PreserveWhitespace := true;
     TargetEmailClient := client |}.

(** An element that matches exactly the selectors of [selectors]. *)
Definition element (tag style : string) (selectors : list string) : Node :=
  {| TagName := tag;
     GetInlineStyle := if isEmpty style then ∅ else ParseInlineStyle style;
     Matches := fun selector => Some (inList selector selectors) |}.

Definition emptyResult : InlineResult :=
  {| InlinedStyles := 0; Warnings := [] |}.

(** A universal rule with an important declaration, and a paragraph with a
    colour of its own. *)
Definition universalSheet : Stylesheet :=
  Parse "* { color: red !important }".

Definition universalThenElementSheet : Stylesheet :=
  Parse "* { color: red !important } p { color: blue }".

Definition blueParagraph : Node := element "p" "color: blue" ["*"; "p"].

Definition plainParagraph : Node := element "p" EmptyString ["*"; "p"].

(** The policy scenario: a class rule with a float, for Outlook. *)
Definition floatSheet : Stylesheet := Parse ".x{float:left;color:red}".

Definition floatDiv : Node := element "div" EmptyString [".x"].

(** The map the driver writes to the element of the policy scenario. *)
Definition floatWritten : gmap string Declaration :=
  ParseInlineStyle "color: red".


(** A style map with two entries. *)
Definition twoStyles : gmap string Declaration :=
  ParseInlineStyle "color: red; margin: 0".

(** A rule taken as a match, as [findMatchingRules] builds it. *)
Definition asMatch (r : Rule) : MatchResult :=
  {| MatchRule := r; MatchSpecificity := RuleSpecificity r;
     MatchDeclarations := Declarations r |}.

(** The two rules of [p{color:red} .hi{color:blue}]. *)
Definition redElementMatch : MatchResult :=
  asMatch {| Selector := "p";
             RuleSpecificity := mkSpecificity 0 0 0 1 false;
             Declarations := {[ "color" := mkDeclaration "color" "red" false ]};
             SourceOrder := 0 |}.

Definition blueClassMatch : MatchResult :=
  asMatch {| Selector := ".hi";
             RuleSpecificity := mkSpecificity 0 0 1 1 false;
             Declarations := {[ "color" := mkDeclaration "color" "blue" false ]};
             SourceOrder := 1 |}.

(** A paragraph of class [hi] with an important colour of its own. *)
Definition greenParagraph : Node :=
  element "p" "color: green !important" ["p"; ".hi"].

(** The default configuration with the optimizations switched off. *)
Definition Default_off : Config :=
  {| PreserveMediaQueries := true;
     PreservePseudoSelectors := true;
     RemoveStyleTags := false;
     StripUnusedCSS := true;
     EmailClientOptimizations := false;
     PreserveWhitespace := true;
     TargetEmailClient := "generic" |}.

(** The cascade output of the policy scenario, and the warning it earns
    when nothing is filtered. *)
Definition floatCascade : gmap string Declaration :=
  ParseInlineStyle "float: left; color: red".

Definition floatWarnings : list ValidationWarning :=
  [ {| WProperty := "float"; WValue := "left";
       Message := "Property may not be supported across all email clients";
       Severity := "info" |} ].

End scenarios.

Export scenarios.

(** ** Views of the maps under one key, used to state the loops *)

Module views.

(** What the merge leaves under one key. *)
Definition mergedAt (old new : option Declaration) : option Declaration :=
  match new, old with
  | None, _ => old
  | Some n, None => Some n
  | Some n, Some o =>
      if Important o && negb (Important n) then Some o else Some n
  end.

(** What the two maps of the cascade hold for one property. *)
Definition slot (st : cascade) (p : string) : option Declaration * option cascadeEntry :=
  (winningDeclarations st !! p, winningSpecs st !! p).

Definition offerSlot (p : string) (d : Declaration) (e : cascadeEntry)
    (sl : option Declaration * option cascadeEntry)
  : option Declaration * option cascadeEntry :=
  if shouldReplace p e (default zeroEntry (snd sl)) then (Some d, Some e)
  else sl.

(** The two maps hold the same properties. *)
Definition paired (sl : option Declaration * option cascadeEntry) : Prop :=
  is_Some (fst sl) <-> is_Some (snd sl).

(** A text without exclamation mark. *)
Definition noBang (s : string) : bool :=
  forallb (fun c => negb (Ascii.eqb c "!")) s.


(** The test at the head of [shouldReplace]. *)
Definition zeroComponents (s : Specificity) : bool :=
  (Inline s =? 0) && (IDs s =? 0) && (Classes s =? 0) && (Elements s =? 0).

(** The components of a specificity are counts. *)
Definition wellFormed (s : Specificity) : Prop :=
  0 <= Inline s /\ 0 <= IDs s /\ 0 <= Classes s /\ 0 <= Elements s.

(** The entries of stylesheet rules: the flag of the specificity is never
    set by the parser. *)
Definition ruleLike (e : cascadeEntry) : Prop :=
  SpecImportant (specificity e) = false /\ wellFormed (specificity e).

Definition plainMatch (m : MatchResult) : Prop :=
  SpecImportant (MatchSpecificity m) = false
  /\ wellFormed (MatchSpecificity m).

(** A slot filled by stylesheet rules only. *)
Definition ruleSlot (sl : option Declaration * option cascadeEntry) : Prop :=
  match snd sl with
  | Some e => exists d, ruleLike e /\ important e = Important d
                        /\ fst sl = Some d
  | None => True
  end.

(** A slot won by an important declaration whose entry is not mistaken for
    an empty one. *)
Definition settled (sl : option Declaration * option cascadeEntry) : Prop :=
  exists d e, sl = (Some d, Some e) /\ Important d = true
              /\ important e = true
              /\ zeroComponents (specificity e) = false
              /\ ruleLike e.

(** A slot that is empty or holds a declaration of one of the rules of
    [matches], with the entry built for it. *)
Definition fromRules (matches : list MatchResult) (p : string)
    (sl : option Declaration * option cascadeEntry) : Prop :=
  sl = (None, None)
  \/ exists m d, m ∈ matches /\ MatchDeclarations m !! p = Some d
                 /\ sl = (Some d, Some (ruleEntry m d)).

(** An entry with another source order. *)
Definition setOrder (c : Z) (e : cascadeEntry) : cascadeEntry :=
  {| specificity := specificity e; sourceOrder := c;
     important := important e; isInline := isInline e |}.

(** Two slots with the same winner, whose entries differ in the source
    order only: the second has [c], the first a source order of at most
    [n]; the winner comes from a rule. *)
Definition sameWinner (n c : Z)
    (sl sl' : option Declaration * option cascadeEntry) : Prop :=
  (sl = (None, None) /\ sl' = (None, None))
  \/ exists d e, sl = (Some d, Some e) /\ sl' = (Some d, Some (setOrder c e))
                 /\ sourceOrder e <= n
                 /\ SpecImportant (specificity e) = false
                 /\ Inline (specificity e) < 1000.



(** The byte order of [sort.Strings]. *)
Definition strLe (a b : string) : Prop := String.leb a b = true.

End views.

Export views.

(** * Properties *)

(** ** Loops over maps *)

Section MapLoops.
Context {A : Type}.

(** A loop that copies the entries passing a test builds the filtered
    map. *)
Lemma copy_loop_lookup (keep : string -> A -> bool) (m : gmap string A)
    (k : string) :
  map_fold (fun i x (acc : gmap string A) =>
              if keep i x then <[i := x]> acc else acc) ∅ m !! k
  = match m !! k with
    | Some x => if keep k x then Some x else None
    | None => None
    end.
Proof.
  revert k.
  apply (map_fold_weak_ind
           (fun (acc m : gmap string A) => forall k, acc !! k = match m !! k with
                                   | Some x => if keep k x then Some x else None
                                   | None => None
                                   end)).
  - intros k. by rewrite !lookup_empty.
  - intros i x m' acc Hi IH k.
    destruct (decide (i = k)) as [->|Hne].
    + rewrite lookup_insert_eq. destruct (keep k x).
      * by rewrite lookup_insert_eq.
      * rewrite IH, Hi. done.
    + rewrite (lookup_insert_ne m') by done.
      destruct (keep i x); [rewrite lookup_insert_ne by done|]; apply IH.
Qed.

Lemma copy_all_loop (m : gmap string A) :
  map_fold (fun i x (acc : gmap string A) => <[i := x]> acc) ∅ m = m.
Proof.
  apply map_eq. intros k.
  rewrite (copy_loop_lookup (fun _ _ => true) m k).
  by destruct (m !! k).
Qed.
End MapLoops.

(** ** The merge for the write back *)

Section Merge.
Implicit Types existing newStyles : gmap string Declaration.

Lemma shouldReplaceDeclaration_keeps (o n : Declaration) :
  shouldReplaceDeclaration o n = negb (Important o && negb (Important n)).
Proof.
  unfold shouldReplaceDeclaration.
  by destruct (Important o), (Important n).
Qed.

Lemma MergeStyles_lookup existing newStyles (k : string) :
  MergeStyles existing newStyles !! k
  = mergedAt (existing !! k) (newStyles !! k).
Proof.
  unfold MergeStyles. rewrite copy_all_loop. revert k.
  apply (map_fold_weak_ind
           (fun (acc m : gmap string Declaration) =>
              forall k, acc !! k = mergedAt (existing !! k) (m !! k))).
  - intros k. rewrite lookup_empty. by destruct (existing !! k).
  - intros i n m acc Hi IH k.
    destruct (decide (i = k)) as [->|Hne].
    + rewrite (lookup_insert_eq m). pose proof (IH k) as Hk.
      rewrite Hi in Hk. simpl in Hk.
      assert (acc !! k = existing !! k) as Hacc
          by (rewrite Hk; by destruct (existing !! k)).
      rewrite Hacc. destruct (existing !! k) as [o|] eqn:Ho; simpl.
      * rewrite shouldReplaceDeclaration_keeps.
        destruct (Important o && negb (Important n)); simpl.
        -- by rewrite Hacc.
        -- by rewrite lookup_insert_eq.
      * by rewrite lookup_insert_eq.
    + rewrite (lookup_insert_ne m) by done. rewrite <- IH.
      destruct (acc !! i) as [o|].
      * destruct (shouldReplaceDeclaration o n);
          [by rewrite lookup_insert_ne|done].
      * by rewrite lookup_insert_ne.
Qed.

(** C8. The merge starts from the existing map; under every property of
    the new map it keeps the existing declaration exactly when that one
    is important and the new one is not, and installs the new declaration
    otherwise.  In particular an important declaration survives the merge
    with a declaration that is not important. *)
Theorem MergeStyles_respects_important :
  (forall existing newStyles (property : string),
      MergeStyles existing newStyles !! property
      = match newStyles !! property, existing !! property with
        | None, old => old
        | Some new, None => Some new
        | Some new, Some old =>
            if Important old && negb (Important new)
            then Some old else Some new
        end)
  /\ (forall (p property value property' value' : string),
        MergeStyles {[ p := mkDeclaration property value true ]}
                    {[ p := mkDeclaration property' value' false ]}
        = {[ p := mkDeclaration property value true ]}).
Proof.
  split.
  - intros. apply MergeStyles_lookup.
  - intros. apply map_eq. intros k. rewrite MergeStyles_lookup.
    destruct (decide (p = k)) as [->|Hne].
    + by rewrite !lookup_singleton_eq.
    + by rewrite !lookup_singleton_ne.
Qed.

(** C9. Merging the same new map a second time changes nothing. *)
Theorem MergeStyles_idempotent existing newStyles :
  MergeStyles (MergeStyles existing newStyles) newStyles
  = MergeStyles existing newStyles.
Proof.
  apply map_eq. intros k. rewrite !MergeStyles_lookup.
  destruct (newStyles !! k) as [n|], (existing !! k) as [o|]; simpl; try done.
  - destruct (Important o && negb (Important n)) eqn:E; simpl.
    + by rewrite E.
    + by destruct (Important n).
  - by destruct (Important n).
Qed.
End Merge.

(** ** The email safety filter *)

Section Filter.
Variable cfg : Config.

Lemma filterEmailSafeStyles_lookup (styles : gmap string Declaration)
    (k : string) :
  filterEmailSafeStyles cfg styles !! k
  = if EmailClientOptimizations cfg
    then match styles !! k with
         | Some d => if keepsEntry cfg k d then Some d else None
         | None => None
         end
    else styles !! k.
Proof.
  unfold filterEmailSafeStyles.
  destruct (EmailClientOptimizations cfg); simpl; [|done].
  apply (copy_loop_lookup (keepsEntry cfg)).
Qed.

Lemma display_values (v : string) :
  String.eqb v "block" || String.eqb v "inline" || String.eqb v "table"
  || String.eqb v "table-cell" = true
  <-> v ∈ ["block"; "inline"; "table"; "table-cell"].
Proof.
  rewrite !orb_true_iff, !String.eqb_eq, !elem_of_cons, elem_of_nil.
  tauto.
Qed.

(** C10. With the optimizations on, an entry of the winning map is kept
    exactly in these cases: its property is on the allow-list; it is
    [position] or any property without a rule of its own and the profile
    does not require inline styles; it is [float] and the target client
    is not [outlook]; it is [display] with one of the four values.  With
    the optimizations off the map is returned as it is, by the filter and
    by the resolver. *)
Theorem filterEmailSafeStyles_policy (styles : gmap string Declaration) :
  if EmailClientOptimizations cfg then
    forall (property : string) (d : Declaration),
      filterEmailSafeStyles cfg styles !! property = Some d <->
      styles !! property = Some d /\
      let requires :=
        RequiresInlineStyles (GetCompatibilityProfile (TargetEmailClient cfg)) in
      (IsEmailSafeProperty property = true
       \/ IsEmailSafeProperty property = false /\
          (property = "position" /\ requires = false
           \/ property = "float" /\ TargetEmailClient cfg <> "outlook"
           \/ property = "display" /\
              Value d ∈ ["block"; "inline"; "table"; "table-cell"]
           \/ property <> "position" /\ property <> "float" /\
              property <> "display" /\ requires = false))
  else
    filterEmailSafeStyles cfg styles = styles
    /\ forall stylesheet node,
        ResolveStyles stylesheet cfg node
        = applyCascade (findMatchingRules stylesheet node)
                       (GetInlineStyle node).
Proof.
  destruct (EmailClientOptimizations cfg) eqn:Hopt.
  - intros property d. rewrite filterEmailSafeStyles_lookup, Hopt.
    unfold keepsEntry. cbv zeta.
    destruct (styles !! property) as [d'|]; [|naive_solver].
    destruct (IsEmailSafeProperty property); [naive_solver|].
    destruct (String.eqb_spec property "position") as [->|Hpos].
    { destruct (RequiresInlineStyles _); simpl; naive_solver. }
    destruct (String.eqb_spec property "float") as [->|Hfl].
    { destruct (String.eqb_spec (TargetEmailClient cfg) "outlook");
        simpl; naive_solver. }
    destruct (String.eqb_spec property "display") as [->|Hdi].
    { destruct (_ || _) eqn:E; simpl; split.
      - intros [= <-]. split; [done|]. right. split; [done|].
        right; right; left. split; [done|]. by apply display_values.
      - by intros [[= <-] _].
      - done.
      - intros [[= <-] [?|[_ H]]]; [done|].
        destruct H as [[? _]|[[? _]|[[_ H]|[_ [_ [? _]]]]]]; try done.
        apply display_values in H. congruence. }
    destruct (RequiresInlineStyles _); simpl; naive_solver.
  - split.
    + unfold filterEmailSafeStyles. by rewrite Hopt.
    + intros. unfold ResolveStyles. by rewrite Hopt.
Qed.
End Filter.

(** ** The cascade *)

Section Cascade.
Implicit Types (st : cascade) (p : string) (d : Declaration)
  (e : cascadeEntry) (m : MatchResult).

Lemma slot_offer k d e st p :
  slot (offer k d e st) p
  = if decide (k = p) then offerSlot p d e (slot st p) else slot st p.
Proof.
  unfold offer, offerSlot, slot. case_decide as Hk.
  - subst k. simpl. destruct (shouldReplace _ _ _); simpl; [|done].
    by rewrite !lookup_insert_eq.
  - destruct (shouldReplace _ _ _); simpl; [|done].
    by rewrite !lookup_insert_ne.
Qed.

Lemma slot_loop (mk : Declaration -> cascadeEntry) st
    (decls : gmap string Declaration) p :
  slot (map_fold (fun k d s => offer k d (mk d) s) st decls) p
  = match decls !! p with
    | Some d => offerSlot p d (mk d) (slot st p)
    | None => slot st p
    end.
Proof.
  revert p.
  apply (map_fold_weak_ind
           (fun (s : cascade) (ds : gmap string Declaration) =>
              forall p, slot s p = match ds !! p with
                                   | Some d => offerSlot p d (mk d) (slot st p)
                                   | None => slot st p
                                   end)).
  - intros p. by rewrite lookup_empty.
  - intros i d ds s Hi IH p. rewrite slot_offer. case_decide as Hk.
    + subst i. rewrite lookup_insert_eq, IH, Hi. done.
    + rewrite lookup_insert_ne by done. apply IH.
Qed.

Lemma slot_cascadeMatch st m p :
  slot (cascadeMatch st m) p
  = match MatchDeclarations m !! p with
    | Some d => offerSlot p d (ruleEntry m d) (slot st p)
    | None => slot st p
    end.
Proof. apply (slot_loop (ruleEntry m)). Qed.

Lemma slot_cascadeInline st (inlineStyles : gmap string Declaration) p :
  slot (cascadeInline st inlineStyles) p
  = match inlineStyles !! p with
    | Some d => offerSlot p d (inlineEntry d) (slot st p)
    | None => slot st p
    end.
Proof. apply (slot_loop inlineEntry). Qed.

(** A property that has no entry yet takes the first declaration offered. *)
Lemma shouldReplace_zeroEntry p e : shouldReplace p e zeroEntry = true.
Proof. reflexivity. Qed.

Lemma offerSlot_filled p d e sl :
  paired sl ->
  paired (offerSlot p d e sl) /\ is_Some (fst (offerSlot p d e sl)).
Proof.
  intros Hp. unfold offerSlot. destruct sl as [od [e0|]]; simpl in *.
  - destruct (shouldReplace _ _ _); simpl.
    + split; [by split|by eexists].
    + split; [done|]. apply Hp. by eexists.
  - split; [by split|by eexists].
Qed.

Lemma cascadeMatch_filled st m p :
  paired (slot st p) ->
  paired (slot (cascadeMatch st m) p)
  /\ (is_Some (fst (slot (cascadeMatch st m) p))
      <-> is_Some (fst (slot st p)) \/ is_Some (MatchDeclarations m !! p)).
Proof.
  intros Hp. rewrite slot_cascadeMatch.
  destruct (MatchDeclarations m !! p) as [d|].
  - destruct (offerSlot_filled p d (ruleEntry m d) _ Hp) as [H1 H2].
    split; [done|]. split; [by right|done].
  - split; [done|]. split; [by left|]. intros [?|[? [=]]]. done.
Qed.

Lemma foldl_cascadeMatch_filled (matches : list MatchResult) st p :
  paired (slot st p) ->
  paired (slot (foldl cascadeMatch st matches) p)
  /\ (is_Some (fst (slot (foldl cascadeMatch st matches) p))
      <-> is_Some (fst (slot st p))
          \/ exists m, m ∈ matches /\ is_Some (MatchDeclarations m !! p)).
Proof.
  revert st. induction matches as [|m matches IH]; intros st Hp; simpl.
  - split; [done|]. split; [by left|].
    intros [?|[m [Hm _]]]; [done|]. by apply elem_of_nil in Hm.
  - destruct (cascadeMatch_filled st m p Hp) as [Hp' Hm].
    destruct (IH _ Hp') as [IH1 IH2]. split; [done|].
    rewrite IH2, Hm. split.
    + intros [[?|?]|[m' [? ?]]].
      * by left.
      * right. exists m. split; [apply elem_of_cons; by left|done].
      * right. exists m'. split; [apply elem_of_cons; by right|done].
    + intros [?|[m' [Hin ?]]]; [by left; left|].
      apply elem_of_cons in Hin as [->|Hin].
      * by left; right.
      * right. by exists m'.
Qed.

(** C7. The cascade output holds a declaration for a property exactly
    when the property is declared by one of the matching rules or by the
    style attribute of the element, and it lists no property twice. *)
Theorem applyCascade_properties (matches : list MatchResult)
    (inlineStyles : gmap string Declaration) :
  (forall p,
      is_Some (applyCascade matches inlineStyles !! p)
      <-> (exists m, m ∈ matches /\ is_Some (MatchDeclarations m !! p))
          \/ is_Some (inlineStyles !! p))
  /\ NoDup (fst <$> map_to_list (applyCascade matches inlineStyles)).
Proof.
  split; [|apply NoDup_fst_map_to_list].
  intros p. unfold applyCascade, cascadeOf.
  set (st0 := {| winningDeclarations := ∅; winningSpecs := ∅ |}).
  assert (paired (slot st0 p)) as Hp0.
  { unfold paired, slot, st0. simpl. by rewrite !lookup_empty. }
  destruct (foldl_cascadeMatch_filled matches st0 p Hp0) as [Hp1 Hm].
  change (winningDeclarations ?s !! p) with (fst (slot s p)).
  rewrite slot_cascadeInline.
  destruct (inlineStyles !! p) as [d|].
  - destruct (offerSlot_filled p d (inlineEntry d) _ Hp1) as [_ H].
    split; [by right|done].
  - rewrite Hm. split.
    + intros [H|H]; [|by left].
      unfold slot, st0 in H. simpl in H. rewrite lookup_empty in H.
      by destruct H.
    + intros [H|[? [=]]]. by right.
Qed.
End Cascade.

(** ** The cascade on a universal rule *)

(** C1. A universal rule has the specificity (0,0,0,0), which
    [shouldReplace] reads as the absence of a winner: the important
    declaration of such a rule is replaced by whatever is offered next, here
    the colour of the style attribute, and in the second document the
    colour of a later element rule. *)
Theorem universal_important_is_replaced :
  (fun r => (Selector r, RuleSpecificity r, map_to_list (Declarations r)))
    <$> Rules universalSheet
  = [("*", mkSpecificity 0 0 0 0 false,
      [("color", mkDeclaration "color" "red" true)])]
  /\ applyCascade (findMatchingRules universalSheet blueParagraph)
                  (GetInlineStyle blueParagraph) !! "color"
     = Some (mkDeclaration "color" "blue" false)
  /\ applyCascade (findMatchingRules universalThenElementSheet plainParagraph)
                  (GetInlineStyle plainParagraph) !! "color"
     = Some (mkDeclaration "color" "blue" false).
Proof. repeat split; vm_compute; reflexivity. Qed.

(** ** Filtering and validation in the driver *)

Section Validation.
Variable cfg : Config.

Lemma ValidateStyles_elem (styles : gmap string Declaration)
    (w : ValidationWarning) :
  w ∈ ValidateStyles cfg styles
  <-> exists k d, styles !! k = Some d /\ w ∈ validateEntry cfg k d.
Proof.
  unfold ValidateStyles. rewrite list_elem_of_In, in_flat_map. split.
  - intros [[k d] [Hin Hw]]. exists k, d. split.
    + by apply elem_of_map_to_list, list_elem_of_In.
    + by apply list_elem_of_In.
  - intros (k & d & Hk & Hw). exists (k, d). split.
    + by apply list_elem_of_In, elem_of_map_to_list.
    + by apply list_elem_of_In.
Qed.

Lemma validateEntry_property (k : string) (d : Declaration)
    (w : ValidationWarning) :
  w ∈ validateEntry cfg k d -> WProperty w = k.
Proof.
  unfold validateEntry. cbv zeta. rewrite elem_of_app.
  intros [H|H].
  - repeat match type of H with
           | _ ∈ (if ?b then _ else _) => destruct b
           end;
      rewrite ?elem_of_cons, ?elem_of_nil in H; naive_solver.
  - destruct (negb _); rewrite ?elem_of_cons, ?elem_of_nil in H; naive_solver.
Qed.

Lemma validateEntry_unsafe (k : string) (d : Declaration) :
  IsEmailSafeProperty k = false ->
  exists w, w ∈ validateEntry cfg k d /\ Severity w = "info".
Proof.
  intros Hk. unfold validateEntry. cbv zeta. rewrite Hk. simpl.
  eexists. split; [apply elem_of_app; right; apply elem_of_cons; by left|done].
Qed.

(** The warnings name a property exactly when the validated map holds it
    and the allow-list does not. *)
Lemma ValidateStyles_unsafe_property (styles : gmap string Declaration)
    (k : string) :
  IsEmailSafeProperty k = false ->
  (exists w, w ∈ ValidateStyles cfg styles /\ WProperty w = k)
  <-> is_Some (styles !! k).
Proof.
  intros Hk. split.
  - intros (w & Hw & Hp). apply ValidateStyles_elem in Hw as (k' & d & Hd & Hw).
    apply validateEntry_property in Hw. rewrite Hp in Hw. subst k'. by eexists.
  - intros [d Hd]. destruct (validateEntry_unsafe k d Hk) as (w & Hw & _).
    exists w. split.
    + apply ValidateStyles_elem. by exists k, d.
    + by apply validateEntry_property in Hw.
Qed.

Lemma ResolveStyles_drops_float (stylesheet : Stylesheet) (node : Node) :
  TargetEmailClient cfg = "outlook" ->
  EmailClientOptimizations cfg = true ->
  ResolveStyles stylesheet cfg node !! "float" = None.
Proof.
  intros Hc Ho. unfold ResolveStyles. rewrite Ho.
  rewrite filterEmailSafeStyles_lookup, Ho.
  destruct (_ !! "float") as [d|]; [|done].
  unfold keepsEntry. rewrite Hc. reflexivity.
Qed.

(** C2, as the code has it.  For Outlook with the optimizations on, the
    resolver drops a winning float; the map written to the element holds a
    float exactly when the style attribute of the element already declares
    one, which the merge puts back; and the warnings of the element are those
    of the written map, so they name the float exactly when it is written:
    a float that was filtered out is not reported. *)
Theorem float_filtered_for_outlook (stylesheet : Stylesheet)
    (element : Node) (result result' : InlineResult)
    (finalStyles : gmap string Declaration) :
  TargetEmailClient cfg = "outlook" ->
  EmailClientOptimizations cfg = true ->
  processElement cfg stylesheet element result = (Some finalStyles, result') ->
  ResolveStyles stylesheet cfg element !! "float" = None
  /\ finalStyles !! "float" = GetInlineStyle element !! "float"
  /\ Warnings result' = (Warnings result ++ ValidateStyles cfg finalStyles)%list
  /\ ((exists w, w ∈ ValidateStyles cfg finalStyles /\ WProperty w = "float")
      <-> is_Some (finalStyles !! "float")).
Proof.
  intros Hc Ho Hp.
  pose proof (ResolveStyles_drops_float stylesheet element Hc Ho) as Hf.
  split; [done|].
  unfold processElement in Hp. cbv zeta in Hp.
  destruct (shouldSkipElement _); [done|].
  destruct (_ =? _)%nat; [done|].
  injection Hp as <- <-. simpl.
  split; [|split; [done|]].
  - rewrite MergeStyles_lookup, Hf. unfold mergedAt. done.
  - by apply ValidateStyles_unsafe_property.
Qed.
End Validation.

Lemma float_filtered_for_outlook_witness :
  (TargetEmailClient (configFor "outlook") = "outlook"
   /\ EmailClientOptimizations (configFor "outlook") = true
   /\ processElement (configFor "outlook") floatSheet floatDiv emptyResult
      = (Some floatWritten, {| InlinedStyles := 1; Warnings := [] |}))
  /\ ResolveStyles floatSheet (configFor "outlook") floatDiv !! "float" = None
  /\ floatWritten !! "float" = GetInlineStyle floatDiv !! "float"
  /\ Warnings {| InlinedStyles := 1; Warnings := [] |}
     = (Warnings emptyResult
        ++ ValidateStyles (configFor "outlook") floatWritten)%list
  /\ ((exists w, w ∈ ValidateStyles (configFor "outlook") floatWritten
                 /\ WProperty w = "float")
      <-> is_Some (floatWritten !! "float")).
Proof.
  split; [repeat split; vm_compute; reflexivity|].
  apply (float_filtered_for_outlook (configFor "outlook") floatSheet floatDiv
           emptyResult); vm_compute; reflexivity.
Defined.

(** C2, as stated, fails on the policy scenario: the float wins the cascade
    and is dropped from the written map, and no warning names it. *)
Lemma float_filtered_without_warning :
  applyCascade (findMatchingRules floatSheet floatDiv)
               (GetInlineStyle floatDiv) !! "float"
  = Some (mkDeclaration "float" "left" false)
  /\ IsEmailSafeProperty "float" = false
  /\ processElement (configFor "outlook") floatSheet floatDiv emptyResult
     = (Some floatWritten, {| InlinedStyles := 1; Warnings := [] |})
  /\ floatWritten !! "float" = None
  /\ ~ (exists w,
         w ∈ Warnings (snd (processElement (configFor "outlook") floatSheet
                              floatDiv emptyResult))
         /\ WProperty w = "float").
Proof.
  assert (processElement (configFor "outlook") floatSheet floatDiv emptyResult
          = (Some floatWritten, {| InlinedStyles := 1; Warnings := [] |})) as E
      by (vm_compute; reflexivity).
  repeat split; try (vm_compute; reflexivity).
  rewrite E. simpl. intros (w & Hw & _). by apply elem_of_nil in Hw.
Qed.

(** ** The scans *)

Section Scans.
Variable matchAt : matcher.


Lemma findFrom_skip (s : string) (prev : option ascii) :
  findFrom matchAt (String.length s) prev s = [].
Proof.
  revert prev. induction s as [|c s IH]; intros prev; simpl; [done|apply IH].
Qed.

Lemma takeS_length (s : string) : takeS (String.length s) s = s.
Proof. induction s as [|c s IH]; simpl; [done|by rewrite IH]. Qed.

End Scans.

(** ** The marker of important declarations *)

Section Important.



Lemma HasPrefix_cons_inv (c p : ascii) (s pre : string) :
  HasPrefix (String c s) (String p pre) = true ->
  c = p /\ HasPrefix s pre = true.
Proof.
  simpl. intros [Hc Hs]%andb_true_iff. by apply Ascii.eqb_eq in Hc.
Qed.







End Important.



(** ** One rule for each pair of a selector and a block *)

Section Rules.

Lemma findFrom_elem (matchAt : matcher) (s : string) (skip : nat)
    (prev : option ascii) (x : list string) :
  x ∈ findFrom matchAt skip prev s ->
  exists prev' s' n groups,
    matchAt prev' s' = Some (S n, groups) /\ x = takeS (S n) s' :: groups.
Proof.
  revert skip prev. induction s as [|c s IH]; intros skip prev; simpl.
  - by intros ?%elem_of_nil.
  - destruct skip as [|k]; [|apply IH].
    destruct (matchAt prev (String c s)) as [[[|n] groups]|] eqn:E;
      try apply IH.
    intros [->|Hx]%elem_of_cons; [|by eapply IH].
    by exists prev, (String c s), n, groups.
Qed.



Lemma ruleOfMatch_SourceOrder (i : nat) (m : list string) (r : Rule) :
  ruleOfMatch i m = Some r -> SourceOrder r = Z.of_nat i.
Proof.
  unfold ruleOfMatch.
  destruct m as [|? [|? [|? [|? ?]]]]; try done.
  destruct (_ || _); [done|]. by intros [= <-].
Qed.


End Rules.


(** ** Specificity of pseudo-elements *)

Section PseudoElements.

Lemma FindAllString_elem (matchAt : matcher) (s m : string) :
  m ∈ FindAllString matchAt s ->
  exists prev s' n groups,
    matchAt prev s' = Some (S n, groups) /\ m = takeS (S n) s'.
Proof.
  unfold FindAllString, FindAllStringSubmatch.
  intros (x & Hx & Hm)%list_elem_of_omap.
  apply findFrom_elem in Hx as (prev & s' & n & groups & Hat & ->).
  injection Hm as <-. by exists prev, s', n, groups.
Qed.

(** A match of the expression for pseudo-classes is a colon and a name:
    it never starts with two colons. *)
Lemma pseudoClass_match_one_colon (selector m : string) :
  m ∈ FindAllString pseudoClassRegex selector -> HasPrefix m "::" = false.
Proof.
  intros (prev & s & n & groups & Hat & ->)%FindAllString_elem.
  unfold pseudoClassRegex, leadName in Hat.
  destruct s as [|c0 s]; [done|].
  destruct (HasPrefix (String c0 s) ":") eqn:Hp; [|done].
  apply HasPrefix_cons_inv in Hp as [-> _]. simpl in Hat.
  destruct s as [|c1 s]; [done|]. simpl in Hat.
  destruct (isNameChar c1) eqn:Hc; [|done].
  injection Hat as <- _. simpl.
  destruct (Ascii.eqb_spec c1 ":") as [->|]; [|done].
  by vm_compute in Hc.
Qed.

Lemma filter_all {A} (f : A -> bool) (l : list A) :
  (forall x, x ∈ l -> f x = true) -> List.filter f l = l.
Proof.
  induction l as [|x l IH]; intros H; simpl; [done|].
  rewrite H by (apply elem_of_cons; by left).
  rewrite IH; [done|]. intros y Hy. apply H, elem_of_cons. by right.
Qed.

(** C3. The test that should keep pseudo-elements out of the count of
    classes rejects nothing, on any selector: the expression for
    pseudo-classes finds its match behind the first colon of a
    pseudo-element.  On [p::before] the pseudo-element is counted among the
    classes as well as among the elements. *)
Theorem pseudo_element_counted_as_class :
  (forall selector : string,
      List.filter (fun m => negb (HasPrefix m "::"))
                  (FindAllString pseudoClassRegex selector)
      = FindAllString pseudoClassRegex selector)
  /\ FindAllString pseudoClassRegex "p::before" = [":before"]
  /\ calculateSpecificity "p::before"
     = {| Inline := 0; IDs := 0; Classes := 1; Elements := 3;
          SpecImportant := false |}
  /\ calculateSpecificity "p"
     = {| Inline := 0; IDs := 0; Classes := 0; Elements := 1;
          SpecImportant := false |}.
Proof.
  split; [|repeat split; vm_compute; reflexivity].
  intros selector. apply filter_all. intros m Hm.
  by rewrite (pseudoClass_match_one_colon selector m Hm).
Qed.
End PseudoElements.

(** ** Important declarations of rules with a specificity *)

Section ImportantWins.

Lemma Compare_zero_lt (s t : Specificity) :
  SpecImportant s = false -> SpecImportant t = false ->
  wellFormed t ->
  zeroComponents s = true -> zeroComponents t = false ->
  Compare s t = -1.
Proof.
  unfold zeroComponents, wellFormed, Compare.
  intros -> -> (Hi & Hd & Hc & He) Hs Ht. cbn [andb negb].
  rewrite !andb_true_iff, !Z.eqb_eq in Hs. destruct Hs as [[[-> ->] ->] ->].
  rewrite !andb_false_iff, !Z.eqb_neq in Ht.
  repeat (match goal with
          | |- context [(?a =? ?b)] => destruct (Z.eqb_spec a b)
          | |- context [(?a >? ?b)] => destruct (Z.gtb_spec a b)
          end; cbn [negb]); try done; lia.
Qed.

Lemma shouldReplace_nonzero (p : string) (e' e : cascadeEntry) :
  zeroComponents (specificity e) = false ->
  shouldReplace p e' e
  = if important e' && negb (important e) then true
    else if negb (important e') && important e then false
    else if Compare (specificity e') (specificity e) >? 0 then true
    else if Compare (specificity e') (specificity e) <? 0 then false
    else sourceOrder e' >=? sourceOrder e.
Proof.
  unfold shouldReplace, zeroComponents. by intros ->.
Qed.

Lemma shouldReplace_zero (p : string) (e' e : cascadeEntry) :
  zeroComponents (specificity e) = true -> shouldReplace p e' e = true.
Proof.
  unfold shouldReplace, zeroComponents. by intros ->.
Qed.

Lemma settled_intro (d : Declaration) (e : cascadeEntry) :
  Important d = true -> important e = true ->
  zeroComponents (specificity e) = false -> ruleLike e ->
  settled (Some d, Some e).
Proof. intros. by exists d, e. Qed.

(** An entry of a rule is offered to a slot that holds entries of rules. *)
Lemma offerSlot_rule_settled p d' e' sl :
  ruleLike e' -> important e' = Important d' ->
  settled sl -> settled (offerSlot p d' e' sl).
Proof.
  intros He' Hi (d & e & -> & Hd & He & Hz & Hr). unfold offerSlot.
  cbn -[shouldReplace].
  rewrite shouldReplace_nonzero by done. rewrite He. simpl.
  rewrite andb_false_r.
  destruct (important e') eqn:Hi'; simpl; [|by apply settled_intro].
  assert (Compare (specificity e') (specificity e) <> -1 ->
          settled (Some d', Some e')) as Hnew.
  { intros Hc. apply settled_intro; try done.
    destruct (zeroComponents (specificity e')) eqn:Hz'; [|done].
    destruct He' as [Hf' Hw'], Hr as [Hf Hw].
    by rewrite (Compare_zero_lt _ _ Hf' Hf Hw Hz' Hz) in Hc. }
  destruct (Z.gtb_spec (Compare (specificity e') (specificity e)) 0);
    [apply Hnew; lia|].
  destruct (Z.ltb_spec (Compare (specificity e') (specificity e)) 0);
    [by apply settled_intro|].
  destruct (_ >=? _); [apply Hnew; lia|by apply settled_intro].
Qed.

(** An important entry with a specificity settles a slot of rule entries. *)
Lemma offerSlot_rule_settles p d' e' sl :
  ruleLike e' -> important e' = Important d' ->
  Important d' = true -> zeroComponents (specificity e') = false ->
  ruleSlot sl -> settled (offerSlot p d' e' sl).
Proof.
  intros He' Hi Hd' Hz' Hsl.
  assert (settled (Some d', Some e')) as Hnew
      by (apply settled_intro; congruence).
  unfold offerSlot. destruct sl as [od [e|]]; cbn -[shouldReplace].
  - destruct (zeroComponents (specificity e)) eqn:Hz.
    + by rewrite shouldReplace_zero.
    + destruct Hsl as (d & He & Hid & Hod). simpl in Hod. subst od.
      destruct (important e) eqn:Hie.
      * apply (offerSlot_rule_settled p d' e' (Some d, Some e)); try done.
        apply settled_intro; congruence.
      * rewrite shouldReplace_nonzero by done.
        rewrite Hi, Hd', Hie. done.
  - by rewrite shouldReplace_zeroEntry.
Qed.

Lemma offerSlot_rule_ruleSlot p d' e' sl :
  ruleLike e' -> important e' = Important d' ->
  ruleSlot sl -> ruleSlot (offerSlot p d' e' sl).
Proof.
  intros He' Hi Hsl. unfold offerSlot.
  destruct (shouldReplace _ _ _); [|done]. simpl. by exists d'.
Qed.

Lemma settled_ruleSlot sl : settled sl -> ruleSlot sl.
Proof. intros (d & e & -> & Hd & He & Hz & Hr). exists d. split; [done|]. split; [congruence|done]. Qed.

Lemma ruleEntry_ruleLike (m : MatchResult) (d : Declaration) :
  plainMatch m -> ruleLike (ruleEntry m d).
Proof. by intros [? ?]. Qed.

Lemma foldl_cascadeMatch_settled (matches : list MatchResult)
    (st : cascade) (p : string) :
  Forall plainMatch matches ->
  ruleSlot (slot st p) ->
  (settled (slot st p)
   \/ exists m d, m ∈ matches /\ MatchDeclarations m !! p = Some d
                  /\ Important d = true
                  /\ zeroComponents (MatchSpecificity m) = false) ->
  settled (slot (foldl cascadeMatch st matches) p).
Proof.
  intros Hall. revert st.
  induction Hall as [|m matches Hm Hall IH]; intros st Hrs H; simpl.
  - destruct H as [?|(m & d & Hin & _)]; [done|]. by apply elem_of_nil in Hin.
  - assert (ruleSlot (slot (cascadeMatch st m) p)) as Hrs'.
    { rewrite slot_cascadeMatch. destruct (_ !! p) as [d|]; [|done].
      apply offerSlot_rule_ruleSlot; [by apply ruleEntry_ruleLike|done|done]. }
    apply IH; [done|].
    destruct H as [Hs|(m' & d & Hin & Hd & Hi & Hz)].
    + left. rewrite slot_cascadeMatch. destruct (_ !! p) as [d|]; [|done].
      apply offerSlot_rule_settled; [by apply ruleEntry_ruleLike|done|done].
    + apply elem_of_cons in Hin as [->|Hin].
      * left. rewrite slot_cascadeMatch, Hd.
        apply offerSlot_rule_settles;
          [by apply ruleEntry_ruleLike|done|done|done|done].
      * right. by exists m', d.
Qed.

Lemma foldl_cascadeMatch_ruleSlot (matches : list MatchResult)
    (st : cascade) (p : string) :
  Forall plainMatch matches ->
  ruleSlot (slot st p) -> ruleSlot (slot (foldl cascadeMatch st matches) p).
Proof.
  intros Hall. revert st.
  induction Hall as [|m matches Hm Hall IH]; intros st Hrs; simpl; [done|].
  apply IH. rewrite slot_cascadeMatch. destruct (_ !! p) as [d|]; [|done].
  apply offerSlot_rule_ruleSlot; [by apply ruleEntry_ruleLike|done|done].
Qed.

(** The style attribute is offered last. *)
Lemma offerSlot_inline_important p d' sl :
  ruleSlot sl ->
  Important d' = true \/ settled sl ->
  exists d, fst (offerSlot p d' (inlineEntry d') sl) = Some d
            /\ Important d = true.
Proof.
  intros Hsl H. unfold offerSlot.
  destruct sl as [od [e|]]; cbn -[shouldReplace].
  - destruct Hsl as (d & [Hf Hw] & Hid & Hod). simpl in Hod. subst od.
    destruct (zeroComponents (specificity e)) eqn:Hz.
    + destruct H as [Hd'|(? & ? & [= <- <-] & _ & _ & Hz' & _)];
        [|congruence].
      rewrite shouldReplace_zero by done. by exists d'.
    + rewrite shouldReplace_nonzero by done. simpl.
      destruct (Important d') eqn:Hd'; simpl.
      * destruct (important e) eqn:Hie; simpl; [|by exists d'].
        unfold Compare at 1. simpl. rewrite Hf. simpl. by exists d'.
      * destruct H as [?|(? & ? & [= <- <-] & Hd & He & _)]; [done|].
        rewrite He. simpl. by exists d.
  - destruct H as [Hd'|(? & ? & [=] & _)].
    rewrite shouldReplace_zeroEntry. by exists d'.
Qed.

(** Where the important declaration comes from a rule with a specificity
    other than (0,0,0,0), or from the style attribute, the winner of the
    cascade is important. *)
Lemma applyCascade_important_wins (matches : list MatchResult)
    (inlineStyles : gmap string Declaration) (p : string) :
  Forall plainMatch matches ->
  (exists m d, m ∈ matches /\ MatchDeclarations m !! p = Some d
               /\ Important d = true
               /\ zeroComponents (MatchSpecificity m) = false)
  \/ (exists d, inlineStyles !! p = Some d /\ Important d = true) ->
  exists d, applyCascade matches inlineStyles !! p = Some d
            /\ Important d = true.
Proof.
  intros Hall H. unfold applyCascade, cascadeOf.
  set (st0 := {| winningDeclarations := ∅; winningSpecs := ∅ |}).
  assert (ruleSlot (slot st0 p)) as H0.
  { unfold ruleSlot, slot, st0. simpl. by rewrite lookup_empty. }
  pose proof (foldl_cascadeMatch_ruleSlot matches st0 p Hall H0) as H1.
  change (winningDeclarations ?s !! p) with (fst (slot s p)).
  rewrite slot_cascadeInline.
  destruct H as [Hrule|(d' & Hd' & Hi')].
  - pose proof (foldl_cascadeMatch_settled matches st0 p Hall H0
                  (or_intror Hrule)) as Hs.
    destruct (inlineStyles !! p) as [d'|].
    + apply offerSlot_inline_important; [done|by right].
    + destruct Hs as (d & e & -> & Hd & _). by exists d.
  - rewrite Hd'. apply offerSlot_inline_important; [done|by left].
Qed.

Lemma calculateSpecificity_plain (selector : string) :
  SpecImportant (calculateSpecificity selector) = false
  /\ wellFormed (calculateSpecificity selector).
Proof.
  split; [done|]. unfold wellFormed, calculateSpecificity, len. simpl.
  repeat split; lia.
Qed.

Lemma Parse_rule_specificity (cssText : string) (r : Rule) :
  r ∈ Rules (Parse cssText) ->
  RuleSpecificity r = calculateSpecificity (Selector r).
Proof.
  unfold Parse. simpl. intros (o & Ho & Hr)%list_elem_of_omap.
  apply list_elem_of_lookup in Ho as [i Ho].
  rewrite list_lookup_imap in Ho.
  destruct (ruleMatches cssText !! i) as [m|]; [|done].
  simpl in Ho. injection Ho as <-. simpl in Hr.
  unfold ruleOfMatch in Hr.
  destruct m as [|? [|? [|? [|? ?]]]]; try done.
  destruct (_ || _); [done|]. by injection Hr as <-.
Qed.

Lemma findMatchingRules_plain (cssText : string) (node : Node) :
  Forall plainMatch (findMatchingRules (Parse cssText) node).
Proof.
  apply Forall_forall. intros m (r & Hr & Hm)%list_elem_of_omap.
  destruct (Matches node (Selector r)) as [[]|]; try done.
  injection Hm as <-. unfold plainMatch. simpl.
  rewrite (Parse_rule_specificity cssText r Hr).
  apply calculateSpecificity_plain.
Qed.

(** On a parsed stylesheet: an important declaration of a matching rule
    whose selector has a specificity other than (0,0,0,0), or of the style
    attribute, makes the winner of its property important. *)
Lemma ResolveStyles_important_wins (cssText : string) (node : Node)
    (p : string) :
  (exists r d, r ∈ Rules (Parse cssText)
               /\ Matches node (Selector r) = Some true
               /\ Declarations r !! p = Some d /\ Important d = true
               /\ zeroComponents (RuleSpecificity r) = false)
  \/ (exists d, GetInlineStyle node !! p = Some d /\ Important d = true) ->
  exists d, applyCascade (findMatchingRules (Parse cssText) node)
                         (GetInlineStyle node) !! p = Some d
            /\ Important d = true.
Proof.
  intros H. apply applyCascade_important_wins.
  - apply findMatchingRules_plain.
  - destruct H as [(r & d & Hr & Hm & Hd & Hi & Hz)|H]; [left|by right].
    eexists {| MatchRule := r; MatchSpecificity := RuleSpecificity r;
               MatchDeclarations := Declarations r |}, d.
    split; [|done]. apply list_elem_of_omap. exists r. by rewrite Hm.
Qed.
End ImportantWins.

(** ** The text of a style attribute *)

Section Serialization.

Lemma compare_le_trans (s1 s2 s3 : string) :
  String.compare s1 s2 <> Gt -> String.compare s2 s3 <> Gt ->
  String.compare s1 s3 <> Gt.
Proof.
  revert s2 s3. induction s1 as [|c1 s1 IH]; intros [|c2 s2] [|c3 s3];
    simpl; try done.
  unfold Ascii.compare.
  destruct (N.compare_spec (N_of_ascii c1) (N_of_ascii c2)),
           (N.compare_spec (N_of_ascii c2) (N_of_ascii c3)),
           (N.compare_spec (N_of_ascii c1) (N_of_ascii c3));
    try done; try lia.
  apply IH.
Qed.

#[local] Instance strLe_trans : Transitive strLe.
Proof.
  intros s1 s2 s3. unfold strLe, String.leb. intros H12 H23.
  pose proof (compare_le_trans s1 s2 s3) as H.
  destruct (String.compare s1 s2), (String.compare s2 s3),
           (String.compare s1 s3); try done; by destruct H.
Qed.

#[local] Instance strLe_antisym : AntiSymm (=) strLe.
Proof. intros s1 s2. apply String.leb_antisym. Qed.

Lemma insertSorted_perm (x : string) (l : list string) :
  insertSorted x l ≡ₚ x :: l.
Proof.
  induction l as [|y l IH]; simpl; [done|].
  destruct (String.leb x y); [done|].
  rewrite IH. apply perm_swap.
Qed.

Lemma sortStrings_perm (l : list string) : sortStrings l ≡ₚ l.
Proof.
  induction l as [|x l IH]; simpl; [done|].
  by rewrite insertSorted_perm, IH.
Qed.

Lemma insertSorted_sorted (x : string) (l : list string) :
  StronglySorted strLe l -> StronglySorted strLe (insertSorted x l).
Proof.
  induction l as [|y l IH]; intros Hl; simpl.
  - by repeat constructor.
  - apply StronglySorted_inv in Hl as [Hl Hy].
    destruct (String.leb x y) eqn:Hxy.
    + constructor; [by constructor|]. constructor; [done|].
      eapply Forall_impl; [exact Hy|]. intros z Hz. by transitivity y.
    + constructor; [by apply IH|].
      rewrite insertSorted_perm. constructor; [|done].
      destruct (String.leb_total x y) as [H|H]; [congruence|done].
Qed.

Lemma sortStrings_sorted (l : list string) :
  StronglySorted strLe (sortStrings l).
Proof.
  induction l as [|x l IH]; simpl; [constructor|by apply insertSorted_sorted].
Qed.

(** The sort forgets the order in which the keys were collected. *)
Lemma sortStrings_visit (l1 l2 : list string) :
  l1 ≡ₚ l2 -> sortStrings l1 = sortStrings l2.
Proof.
  intros H. apply (StronglySorted_unique strLe);
    [apply sortStrings_sorted..|].
  by rewrite !sortStrings_perm.
Qed.

(** C6. The writer of the style attribute visits the map in Go's order and
    does not sort: on a map of two entries both orders are results of the
    same call.  [StylesString] sorts the keys it collected, so its text is
    the same whatever the order of the visit; on the two entries it is the
    text in ascending order of the property names, and it is empty on the
    empty map. *)
Theorem formatStyleString_two_results :
  formatStyleString twoStyles "color: red; margin: 0"
  /\ formatStyleString twoStyles "margin: 0; color: red"
  /\ (forall (styles : gmap string Declaration) (visit : list string),
         visit ≡ₚ (fst <$> map_to_list styles) ->
         StylesStringVisit visit styles = StylesString styles)
  /\ StylesString twoStyles = "color: red; margin: 0"
  /\ StylesString ∅ = EmptyString.
Proof.
  split; [|split; [|split; [|split]]].
  - exists [("color", mkDeclaration "color" "red" false);
            ("margin", mkDeclaration "margin" "0" false)].
    split; [vm_compute; first [reflexivity | apply perm_swap]
           |vm_compute; reflexivity].
  - exists [("margin", mkDeclaration "margin" "0" false);
            ("color", mkDeclaration "color" "red" false)].
    split; [vm_compute; first [reflexivity | apply perm_swap]
           |vm_compute; reflexivity].
  - intros styles visit Hv. unfold StylesString, StylesStringVisit.
    by rewrite (sortStrings_visit _ _ Hv).
  - vm_compute. reflexivity.
  - vm_compute. reflexivity.
Qed.
End Serialization.

(** * Further properties of the code *)

(** ** The order of specificities (types.go) *)

Section SpecificityOrder.

Ltac compare_cases :=
  repeat (match goal with
          | |- context [(?a =? ?b)] => destruct (Z.eqb_spec a b)
          | |- context [(?a >? ?b)] => destruct (Z.gtb_spec a b)
          end; cbn [negb]).

(** [Compare] answers -1, 0 or 1, and swapping the arguments negates the
    answer. *)
Theorem Compare_antisym (s t : Specificity) :
  Compare s t = - Compare t s
  /\ (Compare s t = -1 \/ Compare s t = 0 \/ Compare s t = 1).
Proof.
  unfold Compare.
  destruct (SpecImportant s), (SpecImportant t); cbn [andb negb];
    try (split; [done|auto]); compare_cases; split; auto; lia.
Qed.

(** [Compare] answers 0 exactly on equal specificities. *)
Theorem Compare_eq_iff (s t : Specificity) :
  Compare s t = 0 <-> s = t.
Proof.
  split.
  - destruct s as [i1 d1 c1 e1 f1], t as [i2 d2 c2 e2 f2].
    unfold Compare. cbn [Inline IDs Classes Elements SpecImportant].
    destruct f1, f2; cbn [andb negb]; try done;
      compare_cases; try done; intros _; by subst.
  - intros ->. unfold Compare.
    destruct (SpecImportant t); cbn [andb negb];
      by rewrite !Z.eqb_refl.
Qed.

(** Outranking is transitive. *)
Theorem Compare_trans (s t u : Specificity) :
  Compare s t = 1 -> Compare t u = 1 -> Compare s u = 1.
Proof.
  unfold Compare.
  destruct (SpecImportant s), (SpecImportant t), (SpecImportant u);
    cbn [andb negb]; try done.
  all: intros H1 H2; compare_cases; try done; try lia.
  all: revert H1 H2; compare_cases; try done; try lia.
Qed.

(** The specificity of a style attribute outranks the specificity of every
    selector. *)
Theorem inline_outranks_selector (important : bool) (selector : string) :
  Compare (SpecificityFromInline important) (calculateSpecificity selector)
  = 1.
Proof.
  unfold Compare. destruct important; reflexivity.
Qed.
End SpecificityOrder.

Lemma Compare_trans_witness :
  (Compare (mkSpecificity 0 1 0 0 false) (mkSpecificity 0 0 2 0 false) = 1
   /\ Compare (mkSpecificity 0 0 2 0 false) (mkSpecificity 0 0 1 5 false) = 1)
  /\ Compare (mkSpecificity 0 1 0 0 false) (mkSpecificity 0 0 1 5 false) = 1.
Proof.
  split; [split; reflexivity|].
  apply (Compare_trans _ (mkSpecificity 0 0 2 0 false)); reflexivity.
Defined.

(** ** Who wins the cascade (resolver.go) *)

Section Winners.

Lemma offerSlot_fromRules (matches : list MatchResult) (p : string)
    (m : MatchResult) (d : Declaration)
    (sl : option Declaration * option cascadeEntry) :
  fromRules matches p sl -> MatchDeclarations m !! p = Some d ->
  fromRules (matches ++ [m]) p (offerSlot p d (ruleEntry m d) sl).
Proof.
  intros Hsl Hd. unfold offerSlot.
  destruct (shouldReplace _ _ _).
  - right. exists m, d. split; [|done]. apply elem_of_app. right.
    by apply list_elem_of_singleton.
  - destruct Hsl as [->|(m' & d' & Hin & Hd' & ->)]; [by left|].
    right. exists m', d'. split; [|done]. apply elem_of_app. by left.
Qed.

Lemma fromRules_mono (l1 l2 : list MatchResult) (p : string)
    (sl : option Declaration * option cascadeEntry) :
  fromRules l1 p sl -> fromRules (l1 ++ l2) p sl.
Proof.
  intros [->|(m & d & Hin & Hd & ->)]; [by left|].
  right. exists m, d. split; [|done]. apply elem_of_app. by left.
Qed.

Lemma foldl_cascadeMatch_fromRules (matches done_ : list MatchResult)
    (st : cascade) (p : string) :
  fromRules done_ p (slot st p) ->
  fromRules (done_ ++ matches) p (slot (foldl cascadeMatch st matches) p).
Proof.
  revert done_ st. induction matches as [|m matches IH]; intros done_ st H.
  - by rewrite app_nil_r.
  - simpl. replace (done_ ++ m :: matches)%list with ((done_ ++ [m]) ++ matches)%list
      by (by rewrite <- app_assoc).
    apply IH. rewrite slot_cascadeMatch.
    destruct (MatchDeclarations m !! p) as [d|] eqn:Hd.
    + by apply offerSlot_fromRules.
    + by apply fromRules_mono.
Qed.

Lemma rules_slot (matches : list MatchResult) (p : string) :
  fromRules matches p
    (slot (foldl cascadeMatch
                 {| winningDeclarations := ∅; winningSpecs := ∅ |} matches) p).
Proof.
  apply (foldl_cascadeMatch_fromRules matches []).
  left. unfold slot. simpl. by rewrite !lookup_empty.
Qed.

Lemma applyCascade_slot (matches : list MatchResult)
    (inlineStyles : gmap string Declaration) (p : string) :
  applyCascade matches inlineStyles !! p
  = fst (match inlineStyles !! p with
         | Some d =>
             offerSlot p d (inlineEntry d)
               (slot (foldl cascadeMatch
                        {| winningDeclarations := ∅; winningSpecs := ∅ |}
                        matches) p)
         | None =>
             slot (foldl cascadeMatch
                     {| winningDeclarations := ∅; winningSpecs := ∅ |}
                     matches) p
         end).
Proof.
  unfold applyCascade, cascadeOf.
  change (winningDeclarations ?s !! p) with (fst (slot s p)).
  by rewrite slot_cascadeInline.
Qed.

(** The cascade invents nothing: the declaration it returns for a property
    is the one a matching rule or the style attribute gives to that
    property. *)
Theorem applyCascade_winner_offered (matches : list MatchResult)
    (inlineStyles : gmap string Declaration) (p : string) (d : Declaration) :
  applyCascade matches inlineStyles !! p = Some d ->
  (exists m, m ∈ matches /\ MatchDeclarations m !! p = Some d)
  \/ inlineStyles !! p = Some d.
Proof.
  rewrite applyCascade_slot. generalize (rules_slot matches p).
  generalize (slot (foldl cascadeMatch
                      {| winningDeclarations := ∅; winningSpecs := ∅ |}
                      matches) p).
  intros sl Hr. destruct (inlineStyles !! p) as [d'|].
  - unfold offerSlot. destruct (shouldReplace _ _ _); cbn [fst].
    + intros [= ->]. by right.
    + destruct Hr as [->|(m & d0 & Hin & Hd & ->)]; [done|].
      cbn [fst]. intros [= ->]. left. by exists m.
  - destruct Hr as [->|(m & d0 & Hin & Hd & ->)]; [done|].
    cbn [fst]. intros [= ->]. left. by exists m.
Qed.

(** The last matching rule wins a property it declares when the style
    attribute does not declare it and every earlier rule that does is
    neither more specific, nor later in source order, nor important where
    the last one is not. *)
Theorem last_rule_wins (matches : list MatchResult) (m : MatchResult)
    (inlineStyles : gmap string Declaration) (p : string) (d : Declaration) :
  MatchDeclarations m !! p = Some d ->
  inlineStyles !! p = None ->
  (forall m' d', m' ∈ matches -> MatchDeclarations m' !! p = Some d' ->
                 (Important d' = true -> Important d = true)
                 /\ 0 <= Compare (MatchSpecificity m) (MatchSpecificity m')
                 /\ SourceOrder (MatchRule m') <= SourceOrder (MatchRule m)) ->
  applyCascade (matches ++ [m]) inlineStyles !! p = Some d.
Proof.
  intros Hd Hin Hall. rewrite applyCascade_slot, Hin, foldl_app.
  cbn [foldl].
  rewrite slot_cascadeMatch, Hd. generalize (rules_slot matches p).
  generalize (slot (foldl cascadeMatch
                      {| winningDeclarations := ∅; winningSpecs := ∅ |}
                      matches) p).
  intros sl Hr. unfold offerSlot.
  destruct Hr as [->|(m' & d' & Hm' & Hd' & ->)]; [done|].
  destruct (Hall m' d' Hm' Hd') as (Hi & Hc & Hs).
  change (default zeroEntry (snd (Some d', Some (ruleEntry m' d'))))
    with (ruleEntry m' d').
  assert (shouldReplace p (ruleEntry m d) (ruleEntry m' d') = true) as ->;
    [|done].
  unfold shouldReplace. cbn [ruleEntry specificity important sourceOrder].
  destruct (_ && _ && _ && _); [done|].
  destruct (Important d), (Important d'); cbn [andb negb]; try done.
  - destruct (Z.gtb_spec (Compare (MatchSpecificity m) (MatchSpecificity m')) 0);
      [done|].
    destruct (Z.ltb_spec (Compare (MatchSpecificity m) (MatchSpecificity m')) 0);
      [lia|]. apply Z.geb_le. lia.
  - by discriminate Hi.
  - destruct (Z.gtb_spec (Compare (MatchSpecificity m) (MatchSpecificity m')) 0);
      [done|].
    destruct (Z.ltb_spec (Compare (MatchSpecificity m) (MatchSpecificity m')) 0);
      [lia|]. apply Z.geb_le. lia.
Qed.

Lemma shouldReplace_inline (p : string) (d : Declaration) (e : cascadeEntry) :
  SpecImportant (specificity e) = false ->
  Inline (specificity e) < 1000 ->
  (important e = true -> Important d = true) ->
  shouldReplace p (inlineEntry d) e = true.
Proof.
  intros Hf Hi Himp. unfold shouldReplace.
  destruct (_ && _ && _ && _); [done|].
  cbn [inlineEntry important specificity sourceOrder].
  destruct (Important d) eqn:Hd, (important e) eqn:He; cbn [andb negb];
    try done.
  - unfold Compare. cbn [SpecificityFromInline SpecImportant]. by rewrite Hf.
  - by discriminate Himp.
  - unfold Compare. cbn [SpecificityFromInline SpecImportant Inline].
    rewrite Hf. cbn [andb negb].
    destruct (Z.eqb_spec 1000 (Inline (specificity e))); [lia|]. cbn [negb].
    destruct (Z.gtb_spec 1000 (Inline (specificity e))); [done|lia].
Qed.

(** The style attribute against matches whose specificity has no inline
    component. *)
Lemma applyCascade_inline_wins (matches : list MatchResult)
    (inlineStyles : gmap string Declaration) (p : string) (d : Declaration) :
  Forall (fun m => SpecImportant (MatchSpecificity m) = false
                   /\ Inline (MatchSpecificity m) < 1000) matches ->
  inlineStyles !! p = Some d ->
  Important d = true
  \/ (forall m d', m ∈ matches -> MatchDeclarations m !! p = Some d' ->
                   Important d' = false) ->
  applyCascade matches inlineStyles !! p = Some d.
Proof.
  intros Hall Hd H. rewrite applyCascade_slot, Hd.
  generalize (rules_slot matches p).
  generalize (slot (foldl cascadeMatch
                      {| winningDeclarations := ∅; winningSpecs := ∅ |}
                      matches) p).
  intros sl Hr. unfold offerSlot.
  destruct Hr as [->|(m & d' & Hm & Hd' & ->)]; [done|].
  change (default zeroEntry (snd (Some d', Some (ruleEntry m d'))))
    with (ruleEntry m d').
  rewrite Forall_forall in Hall. destruct (Hall m Hm) as [Hf Hi].
  rewrite shouldReplace_inline; [done|done|done|].
  cbn [ruleEntry important]. intros Hi'.
  destruct H as [?|H]; [done|]. by rewrite (H m d' Hm Hd') in Hi'.
Qed.

Lemma findMatchingRules_no_inline (cssText : string) (node : Node) :
  Forall (fun m => SpecImportant (MatchSpecificity m) = false
                   /\ Inline (MatchSpecificity m) < 1000)
         (findMatchingRules (Parse cssText) node).
Proof.
  apply Forall_forall. intros m (r & Hr & Hm)%list_elem_of_omap.
  destruct (Matches node (Selector r)) as [[]|]; try done.
  injection Hm as <-. cbn [MatchSpecificity].
  rewrite (Parse_rule_specificity cssText r Hr). split; [done|]. simpl. lia.
Qed.

(** On a parsed stylesheet a declaration of the style attribute wins its
    property when it is important, and also when no matching rule declares
    the property as important. *)
Theorem inline_declaration_wins (cssText : string) (node : Node)
    (p : string) (d : Declaration) :
  GetInlineStyle node !! p = Some d ->
  Important d = true
  \/ (forall r d', r ∈ Rules (Parse cssText) ->
                   Matches node (Selector r) = Some true ->
                   Declarations r !! p = Some d' -> Important d' = false) ->
  applyCascade (findMatchingRules (Parse cssText) node) (GetInlineStyle node)
    !! p = Some d.
Proof.
  intros Hd H.
  apply applyCascade_inline_wins;
    [apply findMatchingRules_no_inline|done|].
  destruct H as [?|H]; [by left|right].
  intros m d' (r & Hr & Hm)%list_elem_of_omap Hd'.
  destruct (Matches node (Selector r)) as [[]|] eqn:Hmt; try done.
  injection Hm as <-. by apply (H r d' Hr Hmt).
Qed.
End Winners.

Lemma applyCascade_winner_offered_witness :
  applyCascade [redElementMatch; blueClassMatch] ∅ !! "color"
  = Some (mkDeclaration "color" "blue" false)
  /\ ((exists m, m ∈ [redElementMatch; blueClassMatch]
                 /\ MatchDeclarations m !! "color"
                    = Some (mkDeclaration "color" "blue" false))
      \/ (∅ : gmap string Declaration) !! "color"
         = Some (mkDeclaration "color" "blue" false)).
Proof.
  split; [vm_compute; reflexivity|].
  apply (applyCascade_winner_offered [redElementMatch; blueClassMatch] ∅).
  vm_compute. reflexivity.
Defined.

Lemma last_rule_wins_witness :
  applyCascade ([redElementMatch] ++ [blueClassMatch]) ∅ !! "color"
  = Some (mkDeclaration "color" "blue" false).
Proof.
  apply (last_rule_wins [redElementMatch] blueClassMatch ∅ "color").
  - vm_compute. reflexivity.
  - reflexivity.
  - intros m' d' ->%list_elem_of_singleton [= <-].
    repeat split; [done|vm_compute; discriminate|vm_compute; discriminate].
Defined.

Lemma inline_declaration_wins_witness :
  GetInlineStyle greenParagraph !! "color"
  = Some (mkDeclaration "color" "green" true)
  /\ applyCascade
       (findMatchingRules (Parse "p{color:red !important} .hi{color:blue}")
                          greenParagraph)
       (GetInlineStyle greenParagraph) !! "color"
     = Some (mkDeclaration "color" "green" true).
Proof.
  split; [vm_compute; reflexivity|].
  apply (inline_declaration_wins
           "p{color:red !important} .hi{color:blue}" greenParagraph "color").
  - vm_compute. reflexivity.
  - left. reflexivity.
Defined.

(** ** The merge, the filter and the driver *)

Section Driver.

(** The merge drops no property and adds none, and merging with an empty
    map returns the other map. *)
Theorem MergeStyles_dom (existing newStyles : gmap string Declaration) :
  dom (MergeStyles existing newStyles) = dom existing ∪ dom newStyles
  /\ MergeStyles existing ∅ = existing
  /\ MergeStyles ∅ newStyles = newStyles.
Proof.
  split; [|split].
  - apply set_eq. intros k.
    rewrite elem_of_union, !elem_of_dom, MergeStyles_lookup.
    unfold mergedAt.
    destruct (newStyles !! k) as [n|], (existing !! k) as [o|];
      try destruct (_ && _); rewrite ?is_Some_alt; naive_solver.
  - apply map_eq. intros k. rewrite MergeStyles_lookup, lookup_empty.
    unfold mergedAt. by destruct (existing !! k).
  - apply map_eq. intros k. rewrite MergeStyles_lookup, lookup_empty.
    unfold mergedAt. by destruct (newStyles !! k).
Qed.

(** A conflict is reported for a property exactly when both maps declare
    it with different values or different importance, and its [Winner]
    field tells which of the two declarations the merge installs. *)
Theorem GetConflictingProperties_merge
    (existing newStyles : gmap string Declaration) (p : string) :
  GetConflictingProperties existing newStyles !! p
  = match existing !! p, newStyles !! p with
    | Some o, Some n =>
        if negb (String.eqb (Value o) (Value n))
           || negb (Bool.eqb (Important o) (Important n))
        then Some {| ExistingValue := Value o;
                     ExistingImportant := Important o;
                     NewValue := Value n;
                     NewImportant := Important n;
                     Winner := negb (Important o && negb (Important n)) |}
        else None
    | _, _ => None
    end
  /\ forall c, GetConflictingProperties existing newStyles !! p = Some c ->
               MergeStyles existing newStyles !! p
               = if Winner c then newStyles !! p else existing !! p.
Proof.
  assert (GetConflictingProperties existing newStyles !! p
          = match existing !! p, newStyles !! p with
            | Some o, Some n =>
                if negb (String.eqb (Value o) (Value n))
                   || negb (Bool.eqb (Important o) (Important n))
                then Some {| ExistingValue := Value o;
                             ExistingImportant := Important o;
                             NewValue := Value n;
                             NewImportant := Important n;
                             Winner := negb (Important o
                                             && negb (Important n)) |}
                else None
            | _, _ => None
            end) as Hlookup.
  { unfold GetConflictingProperties. revert p.
    apply (map_fold_weak_ind
             (fun (acc : gmap string ConflictInfo)
                  (m : gmap string Declaration) =>
                forall p, acc !! p
                  = match existing !! p, m !! p with
                    | Some o, Some n =>
                        if negb (String.eqb (Value o) (Value n))
                           || negb (Bool.eqb (Important o) (Important n))
                        then Some {| ExistingValue := Value o;
                                     ExistingImportant := Important o;
                                     NewValue := Value n;
                                     NewImportant := Important n;
                                     Winner := negb (Important o
                                                     && negb (Important n)) |}
                        else None
                    | _, _ => None
                    end)).
    - intros p. rewrite !lookup_empty. by destruct (existing !! p).
    - intros i n m acc Hi IH p. destruct (decide (i = p)) as [->|Hne].
      + rewrite (lookup_insert_eq m).
        destruct (existing !! p) as [o|] eqn:Ho.
        * rewrite shouldReplaceDeclaration_keeps.
          destruct (_ || _).
          -- by rewrite lookup_insert_eq.
          -- rewrite IH, Ho, Hi. done.
        * rewrite IH, Ho. done.
      + rewrite (lookup_insert_ne m) by done. rewrite <- IH.
        destruct (existing !! i) as [o|]; [|done].
        destruct (_ || _); [by rewrite lookup_insert_ne|done]. }
  split; [done|].
  intros c Hc. rewrite Hlookup in Hc. rewrite MergeStyles_lookup.
  destruct (existing !! p) as [o|]; [|done].
  destruct (newStyles !! p) as [n|]; [|done].
  destruct (_ || _); [|done]. injection Hc as <-. simpl.
  by destruct (Important o && negb (Important n)).
Qed.

(** The filter only removes entries, and filtering twice is filtering
    once. *)
Theorem filterEmailSafeStyles_subset (cfg : Config)
    (styles : gmap string Declaration) :
  filterEmailSafeStyles cfg styles ⊆ styles
  /\ filterEmailSafeStyles cfg (filterEmailSafeStyles cfg styles)
     = filterEmailSafeStyles cfg styles.
Proof.
  split.
  - apply map_subseteq_spec. intros k d.
    rewrite filterEmailSafeStyles_lookup.
    destruct (EmailClientOptimizations cfg); [|done].
    destruct (styles !! k) as [d'|]; [|done].
    by destruct (keepsEntry cfg k d').
  - apply map_eq. intros k. rewrite !filterEmailSafeStyles_lookup.
    destruct (EmailClientOptimizations cfg); [|done].
    destruct (styles !! k) as [d'|]; [|done].
    destruct (keepsEntry cfg k d') eqn:E; [by rewrite E|done].
Qed.

(** For a client whose profile requires inline styles, the resolver
    returns allow-listed properties, [float] (unless the client is
    [outlook]) and [display] with one of the four values, and nothing
    else; in particular never [position]. *)
Theorem ResolveStyles_requires_inline (cfg : Config)
    (stylesheet : Stylesheet) (node : Node) (p : string) (d : Declaration) :
  EmailClientOptimizations cfg = true ->
  RequiresInlineStyles (GetCompatibilityProfile (TargetEmailClient cfg))
  = true ->
  ResolveStyles stylesheet cfg node !! p = Some d ->
  p <> "position"
  /\ (IsEmailSafeProperty p = true
      \/ p = "float" /\ TargetEmailClient cfg <> "outlook"
      \/ p = "display"
         /\ Value d ∈ ["block"; "inline"; "table"; "table-cell"]).
Proof.
  intros Ho Hr. unfold ResolveStyles. rewrite Ho.
  rewrite filterEmailSafeStyles_lookup, Ho.
  destruct (_ !! p) as [d'|]; [|done].
  unfold keepsEntry. rewrite Hr. cbn [negb].
  destruct (IsEmailSafeProperty p) eqn:Hs.
  { intros _. split; [|by left]. intros ->. by vm_compute in Hs. }
  destruct (String.eqb_spec p "position"); [done|].
  destruct (String.eqb_spec p "float") as [->|].
  { destruct (String.eqb_spec (TargetEmailClient cfg) "outlook"); [done|].
    intros _. split; [done|]. right. by left. }
  destruct (String.eqb_spec p "display") as [->|]; [|done].
  destruct (_ || _) eqn:E; [|done]. intros [= <-].
  split; [done|]. right. right. split; [done|]. by apply display_values.
Qed.
End Driver.

Lemma ResolveStyles_requires_inline_witness :
  "color" <> "position"
  /\ (IsEmailSafeProperty "color" = true
      \/ "color" = "float" /\ TargetEmailClient (configFor "outlook") <> "outlook"
      \/ "color" = "display"
         /\ Value (mkDeclaration "color" "red" false)
            ∈ ["block"; "inline"; "table"; "table-cell"]).
Proof.
  apply (ResolveStyles_requires_inline (configFor "outlook") floatSheet
           floatDiv "color" (mkDeclaration "color" "red" false));
    vm_compute; reflexivity.
Defined.

(** ** What the driver writes to an element *)

Section WriteBack.

Lemma applyCascade_keeps_inline (matches : list MatchResult)
    (inlineStyles : gmap string Declaration) (p : string) (o : Declaration) :
  inlineStyles !! p = Some o ->
  is_Some (applyCascade matches inlineStyles !! p).
Proof.
  intros Ho. rewrite applyCascade_slot, Ho.
  set (st0 := {| winningDeclarations := ∅; winningSpecs := ∅ |}).
  assert (paired (slot st0 p)) as Hp0.
  { unfold paired, slot, st0. simpl. by rewrite !lookup_empty. }
  destruct (foldl_cascadeMatch_filled matches st0 p Hp0) as [Hp1 _].
  by destruct (offerSlot_filled p o (inlineEntry o) _ Hp1).
Qed.

(** On a parsed stylesheet the cascade output already accounts for the
    style attribute: merging it back onto the style attribute changes
    nothing. *)
Lemma MergeStyles_of_cascade (cssText : string) (node : Node) :
  MergeStyles (GetInlineStyle node)
              (applyCascade (findMatchingRules (Parse cssText) node)
                            (GetInlineStyle node))
  = applyCascade (findMatchingRules (Parse cssText) node)
                 (GetInlineStyle node).
Proof.
  apply map_eq. intros p. rewrite MergeStyles_lookup. unfold mergedAt.
  destruct (GetInlineStyle node !! p) as [o|] eqn:Ho.
  - destruct (applyCascade_keeps_inline
                (findMatchingRules (Parse cssText) node) _ p o Ho)
      as [c Hc].
    rewrite Hc. destruct (Important o) eqn:Hi; [|done].
    rewrite (applyCascade_inline_wins _ _ p o
               (findMatchingRules_no_inline cssText node) Ho (or_introl Hi))
      in Hc.
    injection Hc as <-. by rewrite Hi.
  - by destruct (applyCascade _ _ !! p).
Qed.

(** With the optimizations off, the merge of the driver changes nothing:
    the map written to an element is the cascade output.  It is not empty,
    and the count of inlined styles grows by its size. *)
Theorem processElement_writes_cascade (cfg : Config) (cssText : string)
    (element : Node) (result result' : InlineResult)
    (finalStyles : gmap string Declaration) :
  EmailClientOptimizations cfg = false ->
  processElement cfg (Parse cssText) element result
  = (Some finalStyles, result') ->
  finalStyles = applyCascade (findMatchingRules (Parse cssText) element)
                             (GetInlineStyle element)
  /\ finalStyles <> ∅
  /\ InlinedStyles result'
     = InlinedStyles result + Z.of_nat (size finalStyles).
Proof.
  intros Ho. unfold processElement. cbv zeta.
  destruct (shouldSkipElement _); [done|].
  unfold ResolveStyles. rewrite Ho.
  destruct (size _ =? 0)%nat eqn:Hs; [done|].
  rewrite MergeStyles_of_cascade. intros [= <- <-].
  split; [done|]. split; [|done].
  intros He. rewrite He, map_size_empty in Hs. done.
Qed.

(** Whatever the configuration, the map written to an element still holds
    every property of the element's style attribute, and holds the
    important declarations of the style attribute unchanged. *)
Theorem processElement_keeps_inline (cfg : Config) (cssText : string)
    (element : Node) (result result' : InlineResult)
    (finalStyles : gmap string Declaration) (p : string) (o : Declaration) :
  processElement cfg (Parse cssText) element result
  = (Some finalStyles, result') ->
  GetInlineStyle element !! p = Some o ->
  is_Some (finalStyles !! p)
  /\ (Important o = true -> finalStyles !! p = Some o).
Proof.
  unfold processElement. cbv zeta.
  destruct (shouldSkipElement _); [done|].
  destruct (size _ =? 0)%nat; [done|].
  intros [= <- _] Ho. rewrite MergeStyles_lookup, Ho. unfold mergedAt.
  destruct (ResolveStyles (Parse cssText) cfg element !! p) as [n|] eqn:Hn.
  - split; [by destruct (_ && _)|]. intros Hi. rewrite Hi. simpl.
    destruct (Important n) eqn:Hin; [|done]. simpl.
    assert (applyCascade (findMatchingRules (Parse cssText) element)
                         (GetInlineStyle element) !! p = Some n) as Hc.
    { unfold ResolveStyles in Hn.
      destruct (EmailClientOptimizations cfg); [|done].
      rewrite filterEmailSafeStyles_lookup in Hn.
      destruct (EmailClientOptimizations cfg); [|done].
      destruct (applyCascade _ _ !! p) as [c|]; [|done].
      by destruct (keepsEntry cfg p c). }
    rewrite (applyCascade_inline_wins _ _ p o
               (findMatchingRules_no_inline cssText element) Ho
               (or_introl Hi)) in Hc. done.
  - split; [by eexists|done].
Qed.
End WriteBack.

Lemma processElement_writes_cascade_witness :
  (EmailClientOptimizations Default_off = false
   /\ processElement Default_off (Parse ".x{float:left;color:red}") floatDiv
                     emptyResult
      = (Some floatCascade, {| InlinedStyles := 2; Warnings := floatWarnings |}))
  /\ floatCascade
     = applyCascade (findMatchingRules (Parse ".x{float:left;color:red}")
                                       floatDiv)
                    (GetInlineStyle floatDiv)
  /\ floatCascade <> ∅
  /\ InlinedStyles {| InlinedStyles := 2; Warnings := floatWarnings |}
     = InlinedStyles emptyResult + Z.of_nat (size floatCascade).
Proof.
  split; [split; vm_compute; reflexivity|].
  apply (processElement_writes_cascade Default_off
           ".x{float:left;color:red}" floatDiv emptyResult);
    vm_compute; reflexivity.
Defined.

Lemma processElement_keeps_inline_witness :
  (processElement (configFor "outlook")
     (Parse "p{color:red !important} .hi{color:blue}") greenParagraph
     emptyResult
   = (Some (ParseInlineStyle "color: green !important"),
      {| InlinedStyles := 1; Warnings := [] |})
   /\ GetInlineStyle greenParagraph !! "color"
      = Some (mkDeclaration "color" "green" true))
  /\ is_Some (ParseInlineStyle "color: green !important" !! "color")
  /\ (Important (mkDeclaration "color" "green" true) = true ->
      ParseInlineStyle "color: green !important" !! "color"
      = Some (mkDeclaration "color" "green" true)).
Proof.
  split; [split; vm_compute; reflexivity|].
  apply (processElement_keeps_inline (configFor "outlook")
           "p{color:red !important} .hi{color:blue}" greenParagraph
           emptyResult {| InlinedStyles := 1; Warnings := [] |});
    vm_compute; reflexivity.
Defined.

(** ** The policy tables and the validation *)

Section Policy.

Lemma lowerChar_idemp (c : ascii) : lowerChar (lowerChar c) = lowerChar c.
Proof. destruct c as [[] [] [] [] [] [] [] []]; reflexivity. Qed.

Lemma ToLower_idemp (s : string) : ToLower (ToLower s) = ToLower s.
Proof.
  induction s as [|c s IH]; simpl; [done|].
  by rewrite lowerChar_idemp, IH.
Qed.



(** Every warning of the validation is about an entry of the validated map
    and carries its value; an error is about a width or a height in
    viewport units, and an information about a property off the
    allow-list. *)
Theorem ValidateStyles_sound (cfg : Config)
    (styles : gmap string Declaration) (w : ValidationWarning) :
  w ∈ ValidateStyles cfg styles ->
  exists d, styles !! WProperty w = Some d
            /\ WValue w = Value d
            /\ Severity w ∈ ["error"; "warning"; "info"]
            /\ (Severity w = "error" ->
                (WProperty w = "width" \/ WProperty w = "height")
                /\ (Contains (Value d) "vw" = true
                    \/ Contains (Value d) "vh" = true))
            /\ (Severity w = "info" ->
                IsEmailSafeProperty (WProperty w) = false).
Proof.
  intros (k & d & Hd & Hw)%ValidateStyles_elem.
  pose proof (validateEntry_property cfg k d w Hw) as Hk.
  exists d. rewrite Hk. split; [done|].
  unfold validateEntry in Hw. cbv zeta in Hw.
  apply elem_of_app in Hw as [Hw|Hw].
  - destruct (String.eqb_spec k "background-image") as [->|].
    { destruct (_ && _); [|by apply elem_of_nil in Hw].
      apply list_elem_of_singleton in Hw as ->. simpl.
      repeat split; try done. rewrite !elem_of_cons. tauto. }
    destruct (String.eqb k "width" || String.eqb k "height") eqn:Ewh.
    { destruct (_ || _) eqn:Ev in Hw; [|by apply elem_of_nil in Hw].
      apply list_elem_of_singleton in Hw as ->. simpl.
      repeat split; try done.
      - rewrite !elem_of_cons. tauto.
      - apply orb_true_iff in Ewh. rewrite !String.eqb_eq in Ewh. done.
      - by apply orb_true_iff in Ev. }
    destruct (String.eqb_spec k "position") as [->|];
      [|by apply elem_of_nil in Hw].
    destruct (_ && _); [|by apply elem_of_nil in Hw].
    apply list_elem_of_singleton in Hw as ->. simpl.
    repeat split; try done. rewrite !elem_of_cons. tauto.
  - destruct (IsEmailSafeProperty k) eqn:Es; simpl in Hw;
      [by apply elem_of_nil in Hw|].
    apply list_elem_of_singleton in Hw as ->. simpl.
    repeat split; try done. rewrite !elem_of_cons. tauto.
Qed.
End Policy.

Lemma ValidateStyles_sound_witness :
  {| WProperty := "float"; WValue := "left";
     Message := "Property may not be supported across all email clients";
     Severity := "info" |} ∈ ValidateStyles Default_off floatCascade
  /\ exists d, floatCascade !! "float" = Some d
               /\ "left" = Value d
               /\ "info" ∈ ["error"; "warning"; "info"]
               /\ ("info" = "error" ->
                   ("float" = "width" \/ "float" = "height")
                   /\ (Contains (Value d) "vw" = true
                       \/ Contains (Value d) "vh" = true))
               /\ ("info" = "info" -> IsEmailSafeProperty "float" = false).
Proof.
  assert ({| WProperty := "float"; WValue := "left";
             Message := "Property may not be supported across all email clients";
             Severity := "info" |} ∈ ValidateStyles Default_off floatCascade)
    as H by (vm_compute; apply elem_of_cons; by left).
  split; [exact H|].
  exact (ValidateStyles_sound Default_off floatCascade _ H).
Defined.

(** ** The scanner of declarations (parser.go) *)

Section DeclarationScanner.

Lemma importantRegex_needs_bang (prev : option ascii) (s : string) :
  noBang s = true -> importantRegex prev s = None.
Proof.
  unfold noBang, importantRegex. destruct s as [|c s]; [done|]. simpl.
  destruct (Ascii.eqb_spec c "!") as [->|Hc]; [done|].
  intros _. destruct c as [[] [] [] [] [] [] [] []]; done.
Qed.

Lemma scan_noBang (skip : nat) (prev : option ascii) (s : string) :
  noBang s = true ->
  findFrom importantRegex skip prev s = []
  /\ (skip = O -> removeFrom importantRegex skip prev s = s).
Proof.
  revert skip prev. induction s as [|c s IH]; intros skip prev Hs; [done|].
  assert (noBang s = true) as Hs'.
  { unfold noBang in *. simpl in Hs. by apply andb_true_iff in Hs as [_ ?]. }
  cbn [findFrom removeFrom]. destruct skip as [|k].
  - rewrite (importantRegex_needs_bang prev _ Hs).
    destruct (IH O (Some c) Hs') as [-> Hr]. split; [done|].
    intros _. by rewrite Hr.
  - destruct (IH k (Some c) Hs') as [-> _]. done.
Qed.

(** A value without exclamation mark is stored as it is, and the
    declaration is not important. *)
Theorem checkImportant_plain (value : string) :
  noBang value = true -> checkImportant value = (value, false).
Proof.
  intros H. unfold checkImportant, MatchString, FindAllStringSubmatch.
  by destruct (scan_noBang O None value H) as [-> _].
Qed.

Lemma findUnquotedLoop_spec (char : ascii) (s : string) (inQuotes : bool)
    (quoteChar : ascii) (i : Z) :
  findUnquotedLoop char inQuotes quoteChar i s = -1
  \/ (i <= findUnquotedLoop char inQuotes quoteChar i s
        < i + Z.of_nat (String.length s)
      /\ String.get (Z.to_nat
                       (findUnquotedLoop char inQuotes quoteChar i s - i)) s
         = Some char).
Proof.
  revert inQuotes quoteChar i.
  induction s as [|c s IH]; intros inQuotes quoteChar i; [by left|].
  cbn [findUnquotedLoop String.length].
  assert (forall q qc,
             findUnquotedLoop char q qc (i + 1) s = -1
             \/ (i <= findUnquotedLoop char q qc (i + 1) s
                   < i + Z.of_nat (S (String.length s))
                 /\ String.get (Z.to_nat
                        (findUnquotedLoop char q qc (i + 1) s - i))
                      (String c s) = Some char)) as Hnext.
  { intros q qc. destruct (IH q qc (i + 1)) as [->|[Hr Hg]]; [by left|].
    right. split; [lia|].
    replace (Z.to_nat (findUnquotedLoop char q qc (i + 1) s - i))
      with (S (Z.to_nat (findUnquotedLoop char q qc (i + 1) s - (i + 1))))
      by lia.
    exact Hg. }
  destruct (negb inQuotes && isQuote c); [apply Hnext|].
  destruct (inQuotes && Ascii.eqb c quoteChar); [apply Hnext|].
  destruct (negb inQuotes && Ascii.eqb c char) eqn:E; [|apply Hnext].
  right. split; [lia|]. rewrite Z.sub_diag. simpl.
  apply andb_true_iff in E as [_ E]. by apply Ascii.eqb_eq in E as ->.
Qed.

Lemma findUnquotedLoop_absent (char : ascii) (s : string) (inQuotes : bool)
    (quoteChar : ascii) (i : Z) :
  forallb (fun c => negb (Ascii.eqb c char)) s = true ->
  findUnquotedLoop char inQuotes quoteChar i s = -1.
Proof.
  revert inQuotes quoteChar i.
  induction s as [|c s IH]; intros inQuotes quoteChar i; [done|].
  simpl. intros [Hc Hs]%andb_true_iff.
  apply negb_true_iff in Hc. rewrite Hc, andb_false_r.
  destruct (negb inQuotes && isQuote c); [by apply IH|].
  destruct (inQuotes && Ascii.eqb c quoteChar); by apply IH.
Qed.

(** [findUnquotedChar] answers -1 or the position of an occurrence of the
    character inside the text, and it answers -1 when the character does
    not occur. *)
Theorem findUnquotedChar_spec (s : string) (char : ascii) :
  (findUnquotedChar s char = -1
   \/ (0 <= findUnquotedChar s char < Z.of_nat (String.length s)
       /\ String.get (Z.to_nat (findUnquotedChar s char)) s = Some char))
  /\ (forallb (fun c => negb (Ascii.eqb c char)) s = true ->
      findUnquotedChar s char = -1).
Proof.
  split.
  - unfold findUnquotedChar.
    destruct (findUnquotedLoop_spec char s false zero 0) as [H|[H1 H2]];
      [by left|right].
    rewrite Z.sub_0_r in H2. split; [lia|done].
  - apply findUnquotedLoop_absent.
Qed.
End DeclarationScanner.

Lemma checkImportant_plain_witness :
  noBang "1px solid red" = true
  /\ checkImportant "1px solid red" = ("1px solid red", false).
Proof.
  split; [reflexivity|].
  apply (checkImportant_plain "1px solid red"). reflexivity.
Defined.

(** ** Quotes in the scanner of declarations *)

Section Quotes.

(** Outside quotes the remembered quote character is not read. *)
Lemma findUnquotedLoop_quoteChar (char : ascii) (s : string)
    (qc qc' : ascii) (i : Z) :
  findUnquotedLoop char false qc i s = findUnquotedLoop char false qc' i s.
Proof.
  revert qc qc' i. induction s as [|c s IH]; intros qc qc' i; [done|].
  cbn [findUnquotedLoop negb andb].
  destruct (isQuote c); [done|].
  destruct (Ascii.eqb c char); [done|]. apply IH.
Qed.

Lemma findUnquotedLoop_shift (char : ascii) (s : string) (inQuotes : bool)
    (quoteChar : ascii) (i : Z) :
  findUnquotedLoop char inQuotes quoteChar i s
  = if findUnquotedLoop char inQuotes quoteChar 0 s =? -1 then -1
    else i + findUnquotedLoop char inQuotes quoteChar 0 s.
Proof.
  revert inQuotes quoteChar i.
  induction s as [|c s IH]; intros inQuotes quoteChar i; [done|].
  cbn [findUnquotedLoop].
  assert (forall q qc,
             findUnquotedLoop char q qc (i + 1) s
             = if findUnquotedLoop char q qc (0 + 1) s =? -1 then -1
               else i + findUnquotedLoop char q qc (0 + 1) s) as Hnext.
  { intros q qc. rewrite (IH q qc (i + 1)), (IH q qc (0 + 1)).
    destruct (findUnquotedLoop_spec char s q qc 0) as [->|[Hr _]]; [done|].
    destruct (Z.eqb_spec (findUnquotedLoop char q qc 0 s) (-1)); [lia|].
    destruct (Z.eqb_spec (0 + 1 + findUnquotedLoop char q qc 0 s) (-1));
      lia. }
  destruct (negb inQuotes && isQuote c); [apply Hnext|].
  destruct (inQuotes && Ascii.eqb c quoteChar); [apply Hnext|].
  destruct (negb inQuotes && Ascii.eqb c char); [|apply Hnext].
  simpl. lia.
Qed.

Lemma findUnquotedLoop_in_quotes (char q : ascii) (body rest : string)
    (i : Z) :
  forallb (fun c => negb (Ascii.eqb c q)) body = true ->
  findUnquotedLoop char true q i (body ++ String q rest)
  = findUnquotedLoop char false q
      (i + Z.of_nat (String.length body) + 1) rest.
Proof.
  revert i. induction body as [|c body IH]; intros i; simpl.
  - intros _. rewrite Ascii.eqb_refl. f_equal. lia.
  - intros [Hc Hb]%andb_true_iff. apply negb_true_iff in Hc.
    rewrite Hc. rewrite (IH (i + 1) Hb). f_equal. lia.
Qed.

(** A quoted stretch at the head of a text is passed over as a whole: the
    character is looked for behind the closing quote. *)
Theorem findUnquotedChar_skips_quoted (q char : ascii)
    (body rest : string) :
  isQuote q = true ->
  forallb (fun c => negb (Ascii.eqb c q)) body = true ->
  findUnquotedChar (String q (body ++ String q rest)) char
  = if findUnquotedChar rest char =? -1 then -1
    else Z.of_nat (String.length body) + 2 + findUnquotedChar rest char.
Proof.
  intros Hq Hb. unfold findUnquotedChar.
  cbn [findUnquotedLoop negb andb]. rewrite Hq.
  rewrite (findUnquotedLoop_in_quotes char q body rest (0 + 1) Hb).
  rewrite findUnquotedLoop_shift.
  rewrite (findUnquotedLoop_quoteChar char rest q zero 0).
  destruct (_ =? _); [done|]. lia.
Qed.



Lemma append_cons (x : ascii) (a b : string) :
  String.append (String x a) b = String x (String.append a b).
Proof. reflexivity. Qed.


Lemma append_empty_r (a : string) : String.append a EmptyString = a.
Proof.
  induction a as [|x a IH]; [done|]. rewrite append_cons. by f_equal.
Qed.

Lemma append_assoc (a b c : string) :
  String.append (String.append a b) c
  = String.append a (String.append b c).
Proof.
  induction a as [|x a IH]; [done|]. rewrite !append_cons. by f_equal.
Qed.


End Quotes.

Lemma findUnquotedChar_skips_quoted_witness :
  (isQuote "'" = true
   /\ forallb (fun c => negb (Ascii.eqb c "'")) "a:b" = true)
  /\ findUnquotedChar (String "'" ("a:b" ++ String "'" " x: y")) ":"
     = if findUnquotedChar " x: y" ":" =? -1 then -1
       else Z.of_nat (String.length "a:b") + 2 + findUnquotedChar " x: y" ":".
Proof.
  split; [split; reflexivity|].
  apply (findUnquotedChar_skips_quoted "'" ":" "a:b" " x: y"); reflexivity.
Defined.

(** ** The map of a declaration block *)

Section Blocks.

Lemma ToLower_nonempty (s : string) :
  isEmpty s = false -> ToLower s <> EmptyString.
Proof. by destruct s. Qed.

Lemma parseDeclaration_property (part : string) (d : Declaration) :
  parseDeclaration part = Some d ->
  ToLower (Property d) = Property d /\ Property d <> EmptyString.
Proof.
  unfold parseDeclaration.
  destruct (splitDeclaration part) as [[property value]|] eqn:Hs; [|done].
  destruct (checkImportant value) as [v i]. intros [= <-]. simpl.
  split; [apply ToLower_idemp|]. apply ToLower_nonempty.
  unfold splitDeclaration in Hs. cbv zeta in Hs.
  destruct (isEmpty (TrimSpace part)); [done|].
  destruct (_ =? _); [done|].
  destruct (isEmpty _ || isEmpty _) eqn:E; [done|].
  injection Hs as <- _. by apply orb_false_iff in E as [? _].
Qed.

(** The loop of [parseDeclarations] over the pieces it has parsed. *)
Lemma store_loop_lookup (ds : list Declaration)
    (acc : gmap string Declaration) (k : string) :
  foldl (fun declarations d => <[Property d := d]> declarations) acc ds !! k
  = match last (filter (fun d => Property d = k) ds) with
    | Some d => Some d
    | None => acc !! k
    end.
Proof.
  revert acc. induction ds as [|d ds IH] using rev_ind; intros acc; [done|].
  rewrite foldl_app, filter_app. cbn [foldl].
  rewrite filter_cons, filter_nil.
  destruct (decide (Property d = k)) as [<-|Hne].
  - rewrite last_snoc. by rewrite lookup_insert_eq.
  - rewrite app_nil_r, lookup_insert_ne by done. apply IH.
Qed.

Lemma parseDeclarations_stores (text : string) :
  parseDeclarations text
  = foldl (fun declarations d => <[Property d := d]> declarations) ∅
          (omap parseDeclaration (smartSplit text ";")).
Proof.
  unfold parseDeclarations.
  generalize (∅ : gmap string Declaration).
  induction (smartSplit text ";") as [|part parts IH]; intros acc; [done|].
  simpl. destruct (parseDeclaration part); simpl; apply IH.
Qed.

(** Within one block the later declaration of a property wins, and a piece
    that does not parse changes nothing: the map holds, for each property,
    the last of the parsed declarations of that property. *)
Theorem parseDeclarations_last_wins (text : string) (k : string) :
  parseDeclarations text !! k
  = last (filter (fun d => Property d = k)
                 (omap parseDeclaration (smartSplit text ";"))).
Proof.
  rewrite parseDeclarations_stores, store_loop_lookup, lookup_empty.
  by destruct (last _).
Qed.

(** Every entry of a parsed block is stored under its own property name,
    which is in lower case and not empty. *)
Theorem parseDeclarations_keys (text : string) (k : string)
    (d : Declaration) :
  parseDeclarations text !! k = Some d ->
  Property d = k /\ ToLower k = k /\ k <> EmptyString.
Proof.
  rewrite parseDeclarations_stores, store_loop_lookup, lookup_empty.
  destruct (last _) as [d'|] eqn:Hl; [|done]. intros [= ->].
  apply last_Some_elem_of in Hl.
  apply list_elem_of_filter in Hl as [Hk Hin].
  apply list_elem_of_omap in Hin as (part & _ & Hp).
  apply parseDeclaration_property in Hp as [H1 H2].
  subst k. done.
Qed.
End Blocks.

Lemma parseDeclarations_keys_witness :
  parseDeclarations "COLOR: red; color: blue" !! "color"
  = Some (mkDeclaration "color" "blue" false)
  /\ Property (mkDeclaration "color" "blue" false) = "color"
  /\ ToLower "color" = "color" /\ "color" <> EmptyString.
Proof.
  split; [vm_compute; reflexivity|].
  apply (parseDeclarations_keys "COLOR: red; color: blue").
  vm_compute. reflexivity.
Defined.

(** ** The rules of a parsed stylesheet *)

Section ParsedRules.

Lemma ruleOfMatch_selector (i : nat) (m : list string) (r : Rule) :
  ruleOfMatch i m = Some r ->
  Selector r <> EmptyString
  /\ RuleSpecificity r = calculateSpecificity (Selector r).
Proof.
  unfold ruleOfMatch.
  destruct m as [|? [|g1 [|g2 [|? ?]]]]; try done.
  destruct (isEmpty (TrimSpace g1)) eqn:E; [done|].
  destruct (isEmpty (TrimSpace g2)); [done|]. simpl.
  intros [= <-]. simpl. split; [|done]. by destruct (TrimSpace g1).
Qed.

Lemma rules_ordered (l : list (list string)) (off : nat) :
  StronglySorted Z.lt
    (SourceOrder <$> omap id (imap (fun j => ruleOfMatch (off + j)) l))
  /\ Forall (fun r => Z.of_nat off <= SourceOrder r
                      < Z.of_nat (off + List.length l))
            (omap id (imap (fun j => ruleOfMatch (off + j)) l)).
Proof.
  revert off. induction l as [|x l IH]; intros off.
  - split; constructor.
  - rewrite imap_cons.
    rewrite (imap_ext _ (fun j => ruleOfMatch (S off + j)) l)
      by (intros; simpl; f_equal; lia).
    destruct (IH (S off)) as [Hs Hf].
    assert (Forall (fun r => Z.of_nat off < SourceOrder r
                             < Z.of_nat (off + List.length (x :: l)))
                   (omap id (imap (fun j => ruleOfMatch (S off + j)) l)))
      as Hf'.
    { eapply Forall_impl; [exact Hf|]. simpl. intros r Hr. lia. }
    replace (off + 0)%nat with off by lia.
    destruct (ruleOfMatch off x) as [r|] eqn:E; simpl.
    + apply ruleOfMatch_SourceOrder in E. split.
      * constructor; [done|]. rewrite Forall_fmap.
        eapply Forall_impl; [exact Hf'|]. simpl. intros r' Hr'. lia.
      * constructor; [simpl; lia|].
        eapply Forall_impl; [exact Hf'|]. simpl. intros r' Hr'. lia.
    + split; [done|].
      eapply Forall_impl; [exact Hf'|]. simpl. intros r' Hr'. lia.
Qed.

(** The rules of a parsed stylesheet come in strictly increasing source
    order, so no two share one; each has a selector that is not empty, the
    specificity computed from that selector, and a source order below the
    number of pairs the text holds. *)
Theorem Parse_rules_ordered (cssText : string) :
  StronglySorted Z.lt (SourceOrder <$> Rules (Parse cssText))
  /\ Forall (fun r => Selector r <> EmptyString
                      /\ RuleSpecificity r
                         = calculateSpecificity (Selector r)
                      /\ 0 <= SourceOrder r
                         < Z.of_nat (List.length (ruleMatches cssText)))
            (Rules (Parse cssText)).
Proof.
  unfold Parse. cbn [Rules].
  rewrite (imap_ext ruleOfMatch (fun j => ruleOfMatch (0 + j))
             (ruleMatches cssText)) by done.
  destruct (rules_ordered (ruleMatches cssText) 0) as [Hs Hf].
  split; [done|]. apply Forall_forall. intros r Hr.
  rewrite Forall_forall in Hf. specialize (Hf r Hr).
  apply list_elem_of_omap in Hr as (o & Ho & Hr).
  apply list_elem_of_lookup in Ho as [i Ho].
  rewrite list_lookup_imap in Ho.
  destruct (ruleMatches cssText !! i) as [m|]; [|done].
  simpl in Ho. injection Ho as <-. simpl in Hr.
  destruct (ruleOfMatch_selector _ _ _ Hr) as [H1 H2].
  repeat split; try done; simpl in Hf; lia.
Qed.
End ParsedRules.

(** ** The removal of comments and of statement rules *)

Section Removal.

Section FirstMatch.
Variable matchAt : matcher.
Hypothesis blind : forall prev prev' s, matchAt prev s = matchAt prev' s.

Lemma removeFrom_blind (skip : nat) (prev prev' : option ascii)
    (s : string) :
  removeFrom matchAt skip prev s = removeFrom matchAt skip prev' s.
Proof.
  destruct s as [|c s]; [done|]. cbn [removeFrom].
  by rewrite (blind prev prev').
Qed.

Lemma removeFrom_skip_app (u v : string) (prev : option ascii) :
  removeFrom matchAt (String.length u) prev (u ++ v)
  = removeFrom matchAt O None v.
Proof.
  revert prev. induction u as [|c u IH]; intros prev.
  - apply removeFrom_blind.
  - rewrite append_cons. cbn [String.length removeFrom]. apply IH.
Qed.

(** The text before the first match stays, the match goes, and the scan
    goes on behind it.  [clean] holds of the texts in which no match
    starts. *)
Lemma removeFrom_first_match (clean : string -> Prop) (u v : string)
    (groups : list string) :
  u <> EmptyString ->
  matchAt None (u ++ v) = Some (String.length u, groups) ->
  (forall c rest, clean (String c rest) ->
                  clean rest
                  /\ matchAt None (String c (rest ++ u ++ v)) = None) ->
  forall a prev,
    clean a ->
    removeFrom matchAt O prev (a ++ u ++ v)
    = String.append a (removeFrom matchAt O None v).
Proof.
  intros Hu Hm Hclean a. induction a as [|c a IH]; intros prev Ha.
  - destruct u as [|x u]; [done|].
    change (EmptyString ++ String x u ++ v)%string
      with (String x (u ++ v)).
    cbn [removeFrom]. rewrite (blind prev None).
    change (String x (u ++ v)) with (String x u ++ v)%string.
    rewrite Hm. cbn [String.length]. apply removeFrom_skip_app.
  - destruct (Hclean c a Ha) as [Ha' Hn].
    rewrite append_cons. cbn [removeFrom].
    rewrite (blind prev None), Hn. rewrite append_cons. f_equal.
    by apply IH.
Qed.

Lemma removeFrom_no_match (a : string) :
  (forall k prev, matchAt prev (dropS k a) = None) ->
  forall prev, removeFrom matchAt O prev a = a.
Proof.
  induction a as [|c a IH]; intros Ha prev; [done|].
  cbn [removeFrom]. pose proof (Ha O prev) as H0. simpl in H0.
  rewrite H0. f_equal. apply IH. intros k prev'. apply (Ha (S k) prev').
Qed.
End FirstMatch.

Lemma length_append (u v : string) :
  String.length (u ++ v) = (String.length u + String.length v)%nat.
Proof.
  induction u as [|x u IH]; [done|].
  rewrite append_cons. simpl. by rewrite IH.
Qed.

Lemma commentRegex_eqb (prev : option ascii) (x y : ascii) (r : string) :
  commentRegex prev (String x (String y r))
  = if Ascii.eqb x "/" && Ascii.eqb y "*"
    then match Index r "*/" with
         | Some m => Some ((2 + m + 2)%nat, [])
         | None => None
         end
    else None.
Proof.
  destruct (Ascii.eqb_spec x "/") as [->|Hx].
  - destruct (Ascii.eqb_spec y "*") as [->|Hy]; [done|].
    destruct y as [[] [] [] [] [] [] [] []]; done.
  - destruct x as [[] [] [] [] [] [] [] []]; done.
Qed.

Lemma commentRegex_short (prev : option ascii) (x : ascii) :
  commentRegex prev (String x EmptyString) = None.
Proof. destruct x as [[] [] [] [] [] [] [] []]; done. Qed.

Lemma Index_None_cons (x : ascii) (s sub : string) :
  Index (String x s) sub = None ->
  HasPrefix (String x s) sub = false /\ Index s sub = None.
Proof.
  cbn [Index]. destruct (HasPrefix (String x s) sub); [done|].
  by destruct (Index s sub).
Qed.

Lemma Index_None_drop (k : nat) (s sub : string) :
  Index s sub = None -> Index (dropS k s) sub = None.
Proof.
  revert s. induction k as [|k IH]; intros s Hs; [by destruct s|].
  destruct s as [|x s]; [done|]. simpl.
  apply IH. by apply Index_None_cons in Hs as [_ ?].
Qed.

(** No comment starts inside a text that holds no opening mark, even when
    an opening mark follows it. *)
Lemma commentRegex_before (c : ascii) (rest tail : string) :
  Index (String c rest) "/*" = None ->
  commentRegex None (String c (rest ++ String "/" tail)) = None.
Proof.
  intros [Hp _]%Index_None_cons. destruct rest as [|y rest].
  - change (EmptyString ++ String "/" tail)%string with (String "/" tail).
    rewrite commentRegex_eqb. by rewrite andb_false_r.
  - rewrite append_cons, commentRegex_eqb.
    simpl in Hp. rewrite andb_true_r in Hp. by rewrite Hp.
Qed.

Lemma commentRegex_none (s : string) (prev : option ascii) :
  Index s "/*" = None -> commentRegex prev s = None.
Proof.
  destruct s as [|x [|y s]]; [done|intros _; apply commentRegex_short|].
  intros [Hp _]%Index_None_cons. rewrite commentRegex_eqb.
  simpl in Hp. rewrite andb_true_r in Hp. by rewrite Hp.
Qed.

(** The first closing mark behind a body that holds none is at the end of
    the body. *)
Lemma Index_closing (c b : string) :
  Index c "*/" = None ->
  Index (c ++ String "*" (String "/" b)) "*/" = Some (String.length c).
Proof.
  induction c as [|x c IH]; [done|].
  intros [Hp Hc]%Index_None_cons. rewrite append_cons. cbn [Index].
  assert (HasPrefix (String x (c ++ String "*" (String "/" b))) "*/"
          = false) as ->.
  { destruct c as [|y c].
    - simpl. by rewrite andb_false_r.
    - rewrite append_cons. simpl. simpl in Hp.
      by rewrite andb_true_r in Hp |- *. }
  by rewrite (IH Hc).
Qed.

(** A text without opening mark is returned as it is; behind such a text,
    a comment whose body holds no closing mark is removed as a whole, and
    the removal goes on with the text behind it. *)
Theorem removeComments_first_comment (a : string) :
  Index a "/*" = None ->
  removeComments a = a
  /\ forall c b : string,
      Index c "*/" = None ->
      removeComments (a ++ "/*" ++ c ++ "*/" ++ b)
      = String.append a (removeComments b).
Proof.
  intros Ha. split.
  - apply removeFrom_no_match.
    intros k prev. apply commentRegex_none. by apply Index_None_drop.
  - intros c b Hc. unfold removeComments, RemoveAllString.
    rewrite <- (append_assoc c "*/" b).
    rewrite <- (append_assoc "/*" (c ++ "*/") b).
    apply (removeFrom_first_match commentRegex)
      with (groups := []) (clean := fun a => Index a "/*" = None).
    + done.
    + done.
    + change (("/*" ++ c ++ "*/") ++ b)%string
        with (String "/" (String "*" ((c ++ "*/") ++ b))).
      rewrite commentRegex_eqb. simpl.
      rewrite (append_assoc c "*/" b).
      change ("*/" ++ b)%string with (String "*" (String "/" b)).
      rewrite (Index_closing c b Hc).
      change (String.length ("/*" ++ c ++ "*/"))
        with (S (S (String.length (c ++ "*/")))).
      rewrite length_append. cbn [String.length Nat.add].
      rewrite length_append. cbn [String.length]. do 2 f_equal.
    + intros x rest Hx. split; [by apply Index_None_cons in Hx as [_ ?]|].
      change (("/*" ++ c ++ "*/") ++ b)%string
        with (String "/" (String "*" ((c ++ "*/") ++ b))).
      by apply commentRegex_before.
    + done.
Qed.
End Removal.

Lemma removeComments_first_comment_witness :
  Index "p { color: red } " "/*" = None
  /\ removeComments "p { color: red } " = "p { color: red } "
  /\ forall c b : string,
      Index c "*/" = None ->
      removeComments ("p { color: red } " ++ "/*" ++ c ++ "*/" ++ b)
      = String.append "p { color: red } " (removeComments b).
Proof.
  split; [reflexivity|].
  apply (removeComments_first_comment "p { color: red } "). reflexivity.
Defined.

(** ** Statement rules *)

Section Statements.

Lemma atRuleRegex_head (prev : option ascii) (x : ascii) (r : string) :
  Ascii.eqb x "@" = false -> atRuleRegex prev (String x r) = None.
Proof.
  intros Hx.
  destruct x as [[] [] [] [] [] [] [] []]; try done; by vm_compute in Hx.
Qed.

Lemma spanLen_body (f : ascii -> bool) (body : string) (c : ascii)
    (b : string) :
  forallb f body = true -> f c = false ->
  spanLen f (body ++ String c b) = String.length body.
Proof.
  intros Hb Hc. induction body as [|x body IH]; simpl.
  - by rewrite Hc.
  - simpl in Hb. apply andb_true_iff in Hb as [-> Hb]. by rewrite IH.
Qed.

Lemma dropS_app (u v : string) : dropS (String.length u) (u ++ v) = v.
Proof. induction u as [|x u IH]; [by destruct v|]. simpl. exact IH. Qed.

(** Behind a text without at sign, a statement rule (one of the three
    keywords, a body that is not empty and holds no semicolon, and the
    semicolon) is removed as a whole, and the removal goes on behind it; a
    text without at sign is returned as it is. *)
Theorem extractAtRules_statement (a kw body b : string) :
  forallb (fun c => negb (Ascii.eqb c "@")) a = true ->
  kw ∈ ["import"; "charset"; "namespace"] ->
  body <> EmptyString ->
  forallb (fun c => negb (Ascii.eqb c ";")) body = true ->
  extractAtRules a = a
  /\ extractAtRules (a ++ "@" ++ kw ++ body ++ ";" ++ b)
     = String.append a (extractAtRules b).
Proof.
  intros Ha Hkw Hne Hbody. split.
  - apply removeFrom_no_match. intros k prev.
    assert (forallb (fun c => negb (Ascii.eqb c "@")) (dropS k a) = true)
      as Hk.
    { clear -Ha. revert a Ha. induction k as [|k IH]; intros a Ha;
        [by destruct a|].
      destruct a as [|x a]; [done|]. simpl in *.
      apply IH. by apply andb_true_iff in Ha as [_ ?]. }
    destruct (dropS k a) as [|x r]; [done|]. simpl in Hk.
    apply andb_true_iff in Hk as [Hx _]. apply negb_true_iff in Hx.
    by apply atRuleRegex_head.
  - unfold extractAtRules, RemoveAllString.
    replace (a ++ "@" ++ kw ++ body ++ ";" ++ b)%string
      with (a ++ ("@" ++ kw ++ body ++ ";") ++ b)%string
      by (by rewrite !append_assoc).
    apply (removeFrom_first_match atRuleRegex)
      with (groups := [kw])
           (clean := fun a => forallb (fun c => negb (Ascii.eqb c "@")) a
                              = true).
    + done.
    + done.
    + rewrite !append_assoc.
      change ("@" ++ kw ++ body ++ ";" ++ b)%string
        with (String "@" (kw ++ body ++ String ";" b)).
      unfold atRuleRegex.
      assert (List.find (HasPrefix (kw ++ body ++ String ";" b))
                        ["import"; "charset"; "namespace"] = Some kw) as ->.
      { rewrite !elem_of_cons, elem_of_nil in Hkw.
        destruct Hkw as [->|[->|[->|[]]]]; reflexivity. }
      rewrite dropS_app.
      rewrite (spanLen_body _ body ";" b Hbody eq_refl).
      destruct body as [|x body]; [done|]. cbn [String.length].
      replace (S (String.length body)) with (String.length (String x body))
        by done.
      rewrite dropS_app. do 2 f_equal.
      change ("@" ++ kw ++ String x body ++ ";")%string
        with (String "@" (kw ++ String x body ++ ";")).
      cbn [String.length]. rewrite !length_append. simpl. lia.
    + intros x rest Hx. simpl in Hx.
      apply andb_true_iff in Hx as [Hx Hr]. split; [done|].
      apply atRuleRegex_head. by apply negb_true_iff in Hx.
    + done.
Qed.
End Statements.

Lemma extractAtRules_statement_witness :
  (forallb (fun c => negb (Ascii.eqb c "@")) "p{x:y} " = true
   /\ "import" ∈ ["import"; "charset"; "namespace"]
   /\ " url(a.css)" <> EmptyString
   /\ forallb (fun c => negb (Ascii.eqb c ";")) " url(a.css)" = true)
  /\ extractAtRules "p{x:y} " = "p{x:y} "
  /\ extractAtRules ("p{x:y} " ++ "@" ++ "import" ++ " url(a.css)" ++ ";"
                     ++ " q{z:w}")
     = String.append "p{x:y} " (extractAtRules " q{z:w}").
Proof.
  assert ("import" ∈ ["import"; "charset"; "namespace"]) as Hin
      by (apply elem_of_cons; by left).
  split; [repeat split; done|].
  apply (extractAtRules_statement "p{x:y} " "import" " url(a.css)"
           " q{z:w}"); done.
Defined.

(** ** The specificity of simple selectors *)

Section SimpleSelectors.

Lemma findFrom_no_match (matchAt : matcher) (a : string) :
  (forall k prev, matchAt prev (dropS k a) = None) ->
  forall prev, findFrom matchAt O prev a = [].
Proof.
  induction a as [|c a IH]; intros Ha prev; [done|].
  cbn [findFrom]. pose proof (Ha O prev) as H0. simpl in H0.
  rewrite H0. apply IH. intros k prev'. apply (Ha (S k) prev').
Qed.

Lemma findFrom_whole (matchAt : matcher) (s : string)
    (prev : option ascii) (groups : list string) :
  s <> EmptyString ->
  matchAt prev s = Some (String.length s, groups) ->
  findFrom matchAt O prev s = [s :: groups].
Proof.
  intros Hs Hm. destruct s as [|c s]; [done|].
  cbn [findFrom]. rewrite Hm. cbn [String.length].
  rewrite findFrom_skip.
  change (takeS (S (String.length s)) (String c s))
    with (takeS (String.length (String c s)) (String c s)).
  by rewrite takeS_length.
Qed.

Lemma forallb_dropS (f : ascii -> bool) (k : nat) (s : string) :
  forallb f s = true -> forallb f (dropS k s) = true.
Proof.
  revert s. induction k as [|k IH]; intros s Hs; [by destruct s|].
  destruct s as [|x s]; [done|]. simpl in *.
  apply IH. by apply andb_true_iff in Hs as [_ ?].
Qed.

(** An expression that starts with a literal character finds nothing in a
    text without that character. *)
Lemma leadName_absent (h : ascii) (lead s : string) :
  forallb (fun c => negb (Ascii.eqb c h)) s = true ->
  FindAllString (leadName (String h lead)) s = [].
Proof.
  intros Hs. unfold FindAllString, FindAllStringSubmatch.
  rewrite findFrom_no_match; [done|].
  intros k prev. pose proof (forallb_dropS _ k s Hs) as Hk.
  unfold leadName. destruct (dropS k s) as [|x r]; [done|].
  simpl in Hk. apply andb_true_iff in Hk as [Hx _].
  apply negb_true_iff in Hx. simpl. by rewrite Hx.
Qed.

Lemma attrRegex_absent (s : string) :
  forallb (fun c => negb (Ascii.eqb c "[")) s = true ->
  FindAllString attrRegex s = [].
Proof.
  intros Hs. unfold FindAllString, FindAllStringSubmatch.
  rewrite findFrom_no_match; [done|].
  intros k prev. pose proof (forallb_dropS _ k s Hs) as Hk.
  destruct (dropS k s) as [|x r]; [done|].
  simpl in Hk. apply andb_true_iff in Hk as [Hx _].
  destruct x as [[] [] [] [] [] [] [] []]; try done; by vm_compute in Hx.
Qed.

Lemma forallb_impl (f g : ascii -> bool) (s : string) :
  (forall c, f c = true -> g c = true) ->
  forallb f s = true -> forallb g s = true.
Proof.
  intros Hfg. induction s as [|c s IH]; [done|]. simpl.
  intros [Hc Hs]%andb_true_iff. by rewrite (Hfg c Hc), IH.
Qed.

Lemma spanLen_all (f : ascii -> bool) (s : string) :
  forallb f s = true -> spanLen f s = String.length s.
Proof.
  induction s as [|c s IH]; [done|]. simpl.
  intros [-> Hs]%andb_true_iff. by rewrite IH.
Qed.

Lemma letter_facts (c : ascii) :
  isLetter c = true ->
  isNameChar c = true
  /\ Ascii.eqb c "#" = false /\ Ascii.eqb c "." = false
  /\ Ascii.eqb c ":" = false /\ Ascii.eqb c "[" = false.
Proof. destruct c as [[] [] [] [] [] [] [] []]; by vm_compute. Qed.

(** A name made of letters that follows a literal character is the one
    match of the expression for that character. *)
Lemma leadName_whole (h : ascii) (name : string) :
  name <> EmptyString ->
  forallb isLetter name = true ->
  FindAllString (leadName (String h EmptyString)) (String h name)
  = [String h name].
Proof.
  intros Hne Hl. unfold FindAllString, FindAllStringSubmatch.
  rewrite (findFrom_whole _ _ _ []); [done|done|].
  unfold leadName. simpl. rewrite Ascii.eqb_refl. simpl.
  rewrite spanLen_all
    by (eapply forallb_impl; [|exact Hl]; intros c Hc;
        by apply letter_facts in Hc as [? _]).
  by destruct name.
Qed.

Lemma elementRegex_whole (prev : option ascii) (name : string) :
  name <> EmptyString ->
  forallb isLetter name = true ->
  match prev with Some p => isWordChar p | None => false end = false ->
  findFrom elementRegex O prev name = [[name]].
Proof.
  intros Hne Hl Hp. apply findFrom_whole; [done|].
  unfold elementRegex. rewrite (spanLen_all _ _ Hl).
  destruct name as [|c name]; [done|]. cbn [String.length].
  rewrite Hp.
  change (S (String.length name)) with (String.length (String c name)).
  rewrite <- (append_empty_r (String c name)) at 2.
  rewrite dropS_app. done.
Qed.

(** For a name made of letters that is none of the keywords the parser
    leaves out, the element selector counts one element; the class
    selector counts one class and one element, and the id selector one id
    and one element, as the name behind the dot or the hash is counted as
    an element too. *)
Theorem simple_selector_specificity (name : string) :
  name <> EmptyString ->
  forallb isLetter name = true ->
  isPseudoClassKeyword (ToLower name) = false ->
  isCSSKeyword (ToLower name) = false ->
  calculateSpecificity name = mkSpecificity 0 0 0 1 false
  /\ calculateSpecificity (String "." name) = mkSpecificity 0 0 1 1 false
  /\ calculateSpecificity (String "#" name) = mkSpecificity 0 1 0 1 false.
Proof.
  intros Hne Hl Hk1 Hk2.
  assert (forallb (fun c => negb (Ascii.eqb c "#")) name = true) as H1
      by (eapply forallb_impl; [|exact Hl]; intros c Hc;
          apply letter_facts in Hc as (_ & H & _); by rewrite H).
  assert (forallb (fun c => negb (Ascii.eqb c ".")) name = true) as H2
      by (eapply forallb_impl; [|exact Hl]; intros c Hc;
          apply letter_facts in Hc as (_ & _ & H & _); by rewrite H).
  assert (forallb (fun c => negb (Ascii.eqb c ":")) name = true) as H3
      by (eapply forallb_impl; [|exact Hl]; intros c Hc;
          apply letter_facts in Hc as (_ & _ & _ & H & _); by rewrite H).
  assert (forallb (fun c => negb (Ascii.eqb c "[")) name = true) as H4
      by (eapply forallb_impl; [|exact Hl]; intros c Hc;
          apply letter_facts in Hc as (_ & _ & _ & _ & H); by rewrite H).
  assert (FindAllString elementRegex name = [name]) as He0.
  { unfold FindAllString, FindAllStringSubmatch.
    by rewrite (elementRegex_whole None name Hne Hl eq_refl). }
  assert (forall h, isLetter h = false -> isWordChar h = false ->
                    FindAllString elementRegex (String h name) = [name])
    as He1.
  { intros h Hh Hw. unfold FindAllString, FindAllStringSubmatch.
    cbn [findFrom]. unfold elementRegex at 1. cbn [spanLen]. rewrite Hh.
    by rewrite (elementRegex_whole (Some h) name Hne Hl Hw). }
  unfold calculateSpecificity, idRegex, classRegex, pseudoClassRegex,
    pseudoElementRegex.
  split; [|split].
  - rewrite !leadName_absent by done. rewrite attrRegex_absent by done.
    rewrite He0. cbn [List.filter]. rewrite Hk1, Hk2. reflexivity.
  - rewrite (leadName_absent "#") by (simpl; by rewrite H1).
    rewrite (leadName_whole "." name Hne Hl).
    rewrite !(leadName_absent ":") by (simpl; by rewrite H3).
    rewrite attrRegex_absent by (simpl; by rewrite H4).
    rewrite (He1 "."%char eq_refl eq_refl).
    cbn [List.filter]. rewrite Hk1, Hk2. reflexivity.
  - rewrite (leadName_whole "#" name Hne Hl).
    rewrite (leadName_absent ".") by (simpl; by rewrite H2).
    rewrite !(leadName_absent ":") by (simpl; by rewrite H3).
    rewrite attrRegex_absent by (simpl; by rewrite H4).
    rewrite (He1 "#"%char eq_refl eq_refl).
    cbn [List.filter]. rewrite Hk1, Hk2. reflexivity.
Qed.
End SimpleSelectors.

Lemma simple_selector_specificity_witness :
  ("hi" <> EmptyString /\ forallb isLetter "hi" = true
   /\ isPseudoClassKeyword (ToLower "hi") = false
   /\ isCSSKeyword (ToLower "hi") = false)
  /\ calculateSpecificity "hi" = mkSpecificity 0 0 0 1 false
  /\ calculateSpecificity (String "." "hi") = mkSpecificity 0 0 1 1 false
  /\ calculateSpecificity (String "#" "hi") = mkSpecificity 0 1 0 1 false.
Proof.
  split; [repeat split; done|].
  apply (simple_selector_specificity "hi"); done.
Defined.

(** ** Writing a declaration and reading it back *)

Section RoundTrip.










End RoundTrip.


(** ** Writing a style attribute and reading it back *)

Section AttributeRoundTrip.










End AttributeRoundTrip.


(** ** The rule a match points to (resolver.go) *)

Section LoopVariable.

Lemma shouldReplace_setOrder (p : string) (e' e : cascadeEntry) (c : Z) :
  sourceOrder e <= sourceOrder e' ->
  shouldReplace p (setOrder c e') (setOrder c e) = shouldReplace p e' e.
Proof.
  intros H. unfold shouldReplace.
  cbn [setOrder specificity important sourceOrder].
  destruct (_ && _ && _ && _); [done|].
  destruct (important e' && _); [done|].
  destruct (negb _ && _); [done|]. cbv zeta.
  destruct (_ >? 0); [done|]. destruct (_ <? 0); [done|].
  transitivity true; [apply Z.geb_le; lia|symmetry; apply Z.geb_le; lia].
Qed.

Lemma sameWinner_mono (n n' c : Z)
    (sl sl' : option Declaration * option cascadeEntry) :
  n <= n' -> sameWinner n c sl sl' -> sameWinner n' c sl sl'.
Proof.
  intros Hn [H|(d & e & -> & -> & Ho & Hs)]; [by left|].
  right. exists d, e. repeat split; try done; try tauto. lia.
Qed.

Lemma offerSlot_sameWinner (p : string) (d : Declaration)
    (e' : cascadeEntry) (n c : Z)
    (sl sl' : option Declaration * option cascadeEntry) :
  sameWinner n c sl sl' ->
  n <= sourceOrder e' ->
  SpecImportant (specificity e') = false ->
  Inline (specificity e') < 1000 ->
  sameWinner (sourceOrder e') c
    (offerSlot p d e' sl) (offerSlot p d (setOrder c e') sl').
Proof.
  intros [[-> ->]|(d0 & e & -> & -> & Ho & Hs)] Hn Hf Hi.
  - right. by exists d, e'.
  - unfold offerSlot.
    change (default zeroEntry (snd (Some d0, Some e))) with e.
    change (default zeroEntry (snd (Some d0, Some (setOrder c e))))
      with (setOrder c e).
    rewrite shouldReplace_setOrder by lia.
    destruct (shouldReplace p e' e).
    + right. by exists d, e'.
    + right. exists d0, e. repeat split; try done; try tauto. lia.
Qed.

Lemma foldl_sameWinner (node : Node) (shared : Rule) (p : string)
    (rules : list Rule) :
  forall (n : Z) (st st' : cascade),
    sameWinner n (SourceOrder shared) (slot st p) (slot st' p) ->
    StronglySorted Z.lt (SourceOrder <$> rules) ->
    Forall (fun r => n <= SourceOrder r
                     /\ SpecImportant (RuleSpecificity r) = false
                     /\ Inline (RuleSpecificity r) < 1000) rules ->
    exists n',
      sameWinner n' (SourceOrder shared)
        (slot (foldl cascadeMatch st
                 (omap (fun rule =>
                          match Matches node (Selector rule) with
                          | Some true =>
                              Some {| MatchRule := rule;
                                      MatchSpecificity := RuleSpecificity rule;
                                      MatchDeclarations := Declarations rule |}
                          | _ => None
                          end) rules)) p)
        (slot (foldl cascadeMatch st'
                 (omap (fun rule =>
                          match Matches node (Selector rule) with
                          | Some true =>
                              Some {| MatchRule := shared;
                                      MatchSpecificity := RuleSpecificity rule;
                                      MatchDeclarations := Declarations rule |}
                          | _ => None
                          end) rules)) p).
Proof.
  induction rules as [|r rules IH]; intros n st st' Hw Hs Hall.
  - by exists n.
  - apply Forall_cons in Hall as [(Hn & Hf & Hi) Hall].
    rewrite fmap_cons in Hs. apply StronglySorted_inv in Hs as [Hs Hlt].
    rewrite Forall_fmap in Hlt.
    assert (Forall (fun r' => SourceOrder r <= SourceOrder r'
                              /\ SpecImportant (RuleSpecificity r') = false
                              /\ Inline (RuleSpecificity r') < 1000) rules)
      as Hall'.
    { apply Forall_forall. intros r' Hr'.
      rewrite Forall_forall in Hall, Hlt.
      destruct (Hall r' Hr') as (_ & ? & ?). specialize (Hlt r' Hr').
      simpl in Hlt. repeat split; try done. lia. }
    cbn [omap list_omap].
    destruct (Matches node (Selector r)) as [[]|].
    + cbn [foldl]. apply (IH (SourceOrder r)); try done.
      rewrite !slot_cascadeMatch. cbn [MatchDeclarations].
      destruct (Declarations r !! p) as [d|].
      * by apply (offerSlot_sameWinner p d
                    (ruleEntry {| MatchRule := r;
                                  MatchSpecificity := RuleSpecificity r;
                                  MatchDeclarations := Declarations r |} d)
                    n).
      * by apply (sameWinner_mono n).
    + apply (IH (SourceOrder r)); try done. by apply (sameWinner_mono n).
    + apply (IH (SourceOrder r)); try done. by apply (sameWinner_mono n).
Qed.

Lemma shouldReplace_inline_setOrder (p : string) (d : Declaration)
    (e : cascadeEntry) (c : Z) :
  SpecImportant (specificity e) = false ->
  Inline (specificity e) < 1000 ->
  shouldReplace p (inlineEntry d) (setOrder c e)
  = shouldReplace p (inlineEntry d) e.
Proof.
  intros Hf Hi. unfold shouldReplace.
  cbn [setOrder inlineEntry specificity important sourceOrder].
  destruct (_ && _ && _ && _); [done|].
  destruct (Important d && _); [done|].
  destruct (negb _ && _); [done|]. cbv zeta.
  unfold Compare. cbn [SpecificityFromInline SpecImportant Inline].
  rewrite Hf. cbn [negb andb].
  destruct (Important d); cbn [negb andb]; [done|].
  destruct (Z.eqb_spec 1000 (Inline (specificity e))); [lia|]. cbn [negb].
  destruct (Z.gtb_spec 1000 (Inline (specificity e))); [done|lia].
Qed.

Lemma Parse_rules_sorted (cssText : string) :
  StronglySorted Z.lt (SourceOrder <$> Rules (Parse cssText))
  /\ Forall (fun r => 0 <= SourceOrder r) (Rules (Parse cssText)).
Proof.
  unfold Parse. cbn [Rules].
  rewrite (imap_ext ruleOfMatch (fun j => ruleOfMatch (0 + j))
             (ruleMatches cssText)) by done.
  destruct (rules_ordered (ruleMatches cssText) 0) as [Hs Hf].
  split; [done|]. eapply Forall_impl; [exact Hf|]. simpl. intros r Hr. lia.
Qed.

(** The cascade reads of the rule a match points to its source order only,
    and on a parsed stylesheet its outcome does not depend on those
    pointers: whether every match points to the rule it was built from or
    all of them point to the one loop variable, the winning declarations
    are the same. *)
Theorem applyCascade_shared_rule (cssText : string) (node : Node)
    (inlineStyles : gmap string Declaration) :
  applyCascade (findMatchingRulesShared (Parse cssText) node) inlineStyles
  = applyCascade (findMatchingRules (Parse cssText) node) inlineStyles.
Proof.
  unfold findMatchingRulesShared.
  destruct (last (Rules (Parse cssText))) as [shared|] eqn:Hl.
  2:{ apply last_None in Hl. unfold findMatchingRules. by rewrite Hl. }
  apply map_eq. intros p. rewrite !applyCascade_slot.
  unfold findMatchingRules.
  destruct (Parse_rules_sorted cssText) as [Hs H0].
  destruct (foldl_sameWinner node shared p (Rules (Parse cssText)) 0
              {| winningDeclarations := ∅; winningSpecs := ∅ |}
              {| winningDeclarations := ∅; winningSpecs := ∅ |})
    as [n Hw].
  - left. unfold slot. simpl. by rewrite !lookup_empty.
  - done.
  - apply Forall_forall. intros r Hr. rewrite Forall_forall in H0.
    split; [by apply H0|].
    rewrite (Parse_rule_specificity cssText r Hr). split; [done|].
    simpl. lia.
  - destruct Hw as [[-> ->]|(d & e & -> & -> & _ & Hf & Hi)]; [done|].
    destruct (inlineStyles !! p) as [o|]; [|done].
    unfold offerSlot.
    change (default zeroEntry (snd (Some d, Some e))) with e.
    change (default zeroEntry (snd (Some d, Some (setOrder _ e))))
      with (setOrder (SourceOrder shared) e).
    rewrite shouldReplace_inline_setOrder by done.
    by destruct (shouldReplace p (inlineEntry o) e).
Qed.
End LoopVariable.

(** ** Elements no rule matches (inliner.go) *)

Section Unmatched.

Lemma applyCascade_nil (inlineStyles : gmap string Declaration) :
  applyCascade [] inlineStyles = inlineStyles.
Proof.
  apply map_eq. intros p. rewrite applyCascade_slot. cbn [foldl].
  unfold slot. cbn [winningDeclarations winningSpecs].
  rewrite !lookup_empty.
  destruct (inlineStyles !! p) as [d|]; [|done].
  unfold offerSlot.
  change (default zeroEntry (snd (None, None))) with zeroEntry.
  by rewrite shouldReplace_zeroEntry.
Qed.

Lemma MergeStyles_filtered (cfg : Config) (styles : gmap string Declaration) :
  MergeStyles styles (filterEmailSafeStyles cfg styles) = styles.
Proof.
  apply map_eq. intros k.
  rewrite MergeStyles_lookup, filterEmailSafeStyles_lookup.
  unfold mergedAt.
  destruct (EmailClientOptimizations cfg), (styles !! k) as [d|]; try done.
  - destruct (keepsEntry cfg k d); [|done]. by destruct (Important d).
  - by destruct (Important d).
Qed.

(** An element that no rule of the stylesheet matches is written back, if
    at all, with the style map it had; its own declarations are then
    counted as inlined styles and validated like those of any other
    element. *)
Theorem processElement_unmatched (cfg : Config) (stylesheet : Stylesheet)
    (element : Node) (result result' : InlineResult)
    (finalStyles : gmap string Declaration) :
  findMatchingRules stylesheet element = [] ->
  processElement cfg stylesheet element result
  = (Some finalStyles, result') ->
  finalStyles = GetInlineStyle element
  /\ InlinedStyles result'
     = InlinedStyles result + Z.of_nat (size (GetInlineStyle element))
  /\ Warnings result'
     = (Warnings result ++ ValidateStyles cfg (GetInlineStyle element))%list.
Proof.
  intros Hm. unfold processElement. cbv zeta.
  destruct (shouldSkipElement _); [done|].
  unfold ResolveStyles. cbv zeta. rewrite Hm, applyCascade_nil.
  assert (MergeStyles (GetInlineStyle element)
            (if EmailClientOptimizations cfg
             then filterEmailSafeStyles cfg (GetInlineStyle element)
             else GetInlineStyle element)
          = GetInlineStyle element) as ->.
  { destruct (EmailClientOptimizations cfg) eqn:Ho.
    - apply MergeStyles_filtered.
    - rewrite <- (MergeStyles_filtered cfg (GetInlineStyle element)) at 3.
      unfold filterEmailSafeStyles. by rewrite Ho. }
  destruct (size _ =? 0)%nat; [done|]. by intros [= <- <-].
Qed.
End Unmatched.

Lemma processElement_unmatched_witness :
  processElement (configFor "gmail") (Parse "div{color:red}")
    (element "p" "float: left" []) emptyResult
  = (Some (ParseInlineStyle "float: left"),
     {| InlinedStyles := 1; Warnings := floatWarnings |})
  /\ ParseInlineStyle "float: left"
     = GetInlineStyle (element "p" "float: left" [])
  /\ 1 = 0 + Z.of_nat (size (GetInlineStyle (element "p" "float: left" [])))
  /\ floatWarnings
     = ([] ++ ValidateStyles (configFor "gmail")
                (GetInlineStyle (element "p" "float: left" [])))%list.
Proof.
  assert (processElement (configFor "gmail") (Parse "div{color:red}")
            (element "p" "float: left" []) emptyResult
          = (Some (ParseInlineStyle "float: left"),
             {| InlinedStyles := 1; Warnings := floatWarnings |})) as H
    by (vm_compute; reflexivity).
  split; [exact H|].
  apply (processElement_unmatched (configFor "gmail")
           (Parse "div{color:red}") (element "p" "float: left" [])
           emptyResult {| InlinedStyles := 1; Warnings := floatWarnings |}
           (ParseInlineStyle "float: left"));
    [vm_compute; reflexivity|exact H].
Defined.
